(** * UserGen: username permutations from personal names

    A shallow embedding of [UserGen.py] and the properties of its
    generation pipeline: name cleaning, variant generation, the three
    enrichment passes (suffixes, l33t speak, capitalisation), the parsing
    of numeric specifications and the final aggregation.

    Conventions of the embedding.
    - A Python [str] is a [string]; the characters of the model are the
      ASCII characters.  What [clean] keeps is ASCII, so every username
      built from a name is ASCII; only user supplied suffix words could
      carry other characters, and the case conversions leave such bytes
      alone.
    - A Python [set] of [str] is a [gset string]; a loop that adds to a
      set is a fold over the elements of the set it iterates on.
    - A Python [int] is a [Z].
    - A raised [ValueError] and [sys.exit(1)] are outcomes of an explicit
      result type. *)

From Stdlib Require Import ZArith Ascii DecimalString.
From stdpp Require Import base gmap sets list strings sorting.

Local Open Scope Z_scope.

(** ** Characters and strings *)

Module Chars.

Definition code (c : ascii) : N := N_of_ascii c.

Definition in_range (lo hi : N) (c : ascii) : bool :=
  ((lo <=? code c) && (code c <=? hi))%N.

(** [a-z] *)
Definition is_lower (c : ascii) : bool := in_range 97 122 c.
(** [A-Z] *)
Definition is_upper (c : ascii) : bool := in_range 65 90 c.
(** [0-9] *)
Definition is_digit (c : ascii) : bool := in_range 48 57 c.
(** [[a-z0-9]] *)
Definition is_lower_alnum (c : ascii) : bool := is_lower c || is_digit c.

(** Whitespace as [str.strip], [str.split] and the regex class [\s]
    see it on ASCII: TAB, LF, VT, FF, CR, FS, GS, RS, US and space. *)
Definition is_space (c : ascii) : bool :=
  in_range 9 13 c || in_range 28 32 c.

(** Whitespace as [int] skips it around a numeral: TAB, LF, VT, FF, CR
    and space. *)
Definition is_int_space (c : ascii) : bool :=
  in_range 9 13 c || bool_decide (c = " "%char).

Definition to_upper (c : ascii) : ascii :=
  if is_lower c then ascii_of_N (code c - 32) else c.

Definition to_lower (c : ascii) : ascii :=
  if is_upper c then ascii_of_N (code c + 32) else c.

(** A cased character: an ASCII letter. *)
Definition is_cased (c : ascii) : bool := is_lower c || is_upper c.

(** An ASCII character: a code below 128.  A string of such characters
    is one on which the string methods of Python act as this file has
    them. *)
Definition is_ascii (c : ascii) : bool := (code c <? 128)%N.

(** The characters a generated variant may contain. *)
Definition is_separator (c : ascii) : bool :=
  bool_decide (c = "."%char) || bool_decide (c = "_"%char)
  || bool_decide (c = "-"%char).

Definition is_username_char (c : ascii) : bool :=
  is_lower_alnum c || is_separator c.

End Chars.

Module Str.

Fixpoint filter (p : ascii → bool) (s : string) : string :=
  match s with
  | EmptyString => EmptyString
  | String c s' => if p c then String c (filter p s') else filter p s'
  end.

Fixpoint map (f : ascii → ascii) (s : string) : string :=
  match s with
  | EmptyString => EmptyString
  | String c s' => String (f c) (map f s')
  end.

Fixpoint forallb (p : ascii → bool) (s : string) : bool :=
  match s with
  | EmptyString => true
  | String c s' => p c && forallb p s'
  end.

Fixpoint mem (c : ascii) (s : string) : bool :=
  match s with
  | EmptyString => false
  | String d s' => bool_decide (c = d) || mem c s'
  end.

Fixpoint drop (n : nat) (s : string) : string :=
  match n, s with
  | O, _ => s
  | S _, EmptyString => EmptyString
  | S n', String _ s' => drop n' s'
  end.

(** How often [c] occurs in [s]. *)
Fixpoint count (c : ascii) (s : string) : nat :=
  match s with
  | EmptyString => 0%nat
  | String d s' => ((if bool_decide (d = c) then 1 else 0) + count c s')%nat
  end.

Fixpoint existsb (p : ascii → bool) (s : string) : bool :=
  match s with
  | EmptyString => false
  | String c s' => p c || existsb p s'
  end.

(** No two neighbours in [s] both satisfy [p]; [prev] tells whether the
    character before [s] does. *)
Fixpoint no_adjacent_from (prev : bool) (p : ascii → bool) (s : string)
    : bool :=
  match s with
  | EmptyString => true
  | String c s' => negb (prev && p c) && no_adjacent_from (p c) p s'
  end.

(** Python truthiness of a [str]: non-empty. *)
Definition truthy (s : string) : bool :=
  match s with EmptyString => false | String _ _ => true end.

(** [s[0]] on a non-empty string.  On the empty string Python raises
    [IndexError]; every use in the program sits under a test that the
    string is non-empty, and the model returns the empty string there. *)
Definition index0 (s : string) : string :=
  match s with
  | EmptyString => EmptyString
  | String c _ => String c EmptyString
  end.

(** [s[2:]] *)
Definition slice_from2 (s : string) : string := drop 2 s.

(** The last two characters of [s] (all of [s] when it is shorter). *)
Definition last2 (s : string) : string :=
  drop (String.length s - 2) s.

End Str.

(** Python's [x in xs] on a list of strings. *)
Definition py_in (x : string) (xs : list string) : bool :=
  bool_decide (x ∈ xs).

(** ** Variant generation *)

(** [re.sub(r"[^a-z0-9]", '', s)] *)
Definition strip_non_alnum (s : string) : string :=
  Str.filter Chars.is_lower_alnum s.

Definition all_formats : list string :=
  ["standard"; "dotted"; "underscored"; "dashed"; "initial"; "reversed"].

(** [variants.add(x)] *)
Definition add (x : string) (s : gset string) : gset string := s ∪ {[ x ]}.

(** [formats] after the resolution at the head of the function: [None]
    and any list holding ['all'] stand for the six categories. *)
Definition resolve_formats (formats : option (list string)) : list string :=
  match formats with
  | None => all_formats
  | Some fs => if py_in "all" fs then all_formats else fs
  end.

(** A category is enabled when it is among the resolved formats. *)
Definition enabled (category : string) (formats : option (list string))
    : bool :=
  py_in category (resolve_formats formats).

(** The six blocks of [generate_variants], one per category, each
    extending the set [variants] built so far.  [f], [l] and [m] are the
    cleaned first, last and middle names. *)
Section Blocks.
Context (formats : list string) (f l m : string).

(** [f[0]], [l[0]] and [m[0]] *)
Local Abbreviation f0 := (Str.index0 f).
Local Abbreviation l0 := (Str.index0 l).
Local Abbreviation m0 := (Str.index0 m).

(** Standard formats (first name first) *)
Definition standard_formats (variants : gset string) : gset string :=
  if py_in "standard" formats then
    let variants := add f variants in
    let variants :=
      if Str.truthy l then
        let variants := add (f +:+ l) variants in
        add (l +:+ f) variants
      else variants in
    if Str.truthy m then
      let variants := add (f +:+ m) variants in
      add (f +:+ m +:+ l) variants
    else variants
  else variants.

(** Dotted formats *)
Definition dotted_formats (variants : gset string) : gset string :=
  if py_in "dotted" formats && Str.truthy l then
    let variants := add (f +:+ "." +:+ l) variants in
    let variants := add (l +:+ "." +:+ f) variants in
    let variants := add (f0 +:+ "." +:+ l) variants in
    let variants := add (f +:+ "." +:+ l0) variants in
    if Str.truthy m then
      let variants := add (f +:+ "." +:+ m +:+ "." +:+ l) variants in
      add (f0 +:+ "." +:+ m0 +:+ "." +:+ l) variants
    else variants
  else variants.

(** Underscored formats *)
Definition underscored_formats (variants : gset string) : gset string :=
  if py_in "underscored" formats && Str.truthy l then
    let variants := add (f +:+ "_" +:+ l) variants in
    let variants := add (l +:+ "_" +:+ f) variants in
    let variants := add (f0 +:+ "_" +:+ l) variants in
    let variants := add (f +:+ "_" +:+ l0) variants in
    if Str.truthy m then
      add (f +:+ "_" +:+ m +:+ "_" +:+ l) variants
    else variants
  else variants.

(** Dashed formats *)
Definition dashed_formats (variants : gset string) : gset string :=
  if py_in "dashed" formats && Str.truthy l then
    let variants := add (f +:+ "-" +:+ l) variants in
    let variants := add (l +:+ "-" +:+ f) variants in
    let variants := add (f0 +:+ "-" +:+ l) variants in
    add (f +:+ "-" +:+ l0) variants
  else variants.

(** Initial-based formats *)
Definition initial_formats (variants : gset string) : gset string :=
  if py_in "initial" formats && Str.truthy l then
    let variants := add (f0 +:+ l) variants in
    let variants := add (l +:+ f0) variants in
    let variants := add (f +:+ l0) variants in
    let variants := add (l0 +:+ f) variants in
    if Str.truthy m then
      let variants := add (f0 +:+ m0 +:+ l) variants in
      add (f +:+ m0 +:+ l0) variants
    else variants
  else variants.

(** Reversed formats (last name first) *)
Definition reversed_formats (variants : gset string) : gset string :=
  if py_in "reversed" formats && Str.truthy l then
    let variants := add l variants in
    let variants := add (l +:+ f) variants in
    let variants := add (l +:+ "." +:+ f) variants in
    let variants := add (l +:+ "_" +:+ f) variants in
    add (l +:+ "-" +:+ f) variants
  else variants.

End Blocks.

Arguments standard_formats formats f l m variants : assert.
Arguments dotted_formats formats f l m variants : assert.
Arguments underscored_formats formats f l m variants : assert.
Arguments dashed_formats formats f l variants : assert.
Arguments initial_formats formats f l m variants : assert.
Arguments reversed_formats formats f l variants : assert.

Definition generate_variants
    (first last middle : string) (formats : option (list string))
    : gset string :=
  let f := strip_non_alnum first in
  let l := strip_non_alnum last in
  let m := if Str.truthy middle then strip_non_alnum middle else "" in
  if negb (Str.truthy f) then ∅ else
  let variants : gset string := ∅ in
  let formats := resolve_formats formats in
  let variants := standard_formats formats f l m variants in
  let variants := dotted_formats formats f l m variants in
  let variants := underscored_formats formats f l m variants in
  let variants := dashed_formats formats f l variants in
  let variants := initial_formats formats f l m variants in
  let variants := reversed_formats formats f l variants in
  variants.


(** ** The expander passes *)

(** [str(n)] on an [int]. *)
Definition py_str (n : Z) : string := NilZero.string_of_int (Z.to_int n).

(** Python truthiness of an optional list: [None] and [[]] are false. *)
Definition list_truthy {A} (o : option (list A)) : bool :=
  match o with
  | Some (_ :: _) => true
  | _ => false
  end.

Definition items {A} (o : option (list A)) : list A := default [] o.

(** [for x in xs: body], threading the set that the body updates. *)
Definition for_each {A S} (xs : list A) (body : A → S → S) (s : S) : S :=
  fold_left (λ acc x, body x acc) xs s.

Definition add_suffixes
    (usernames : gset string)
    (numbers years : option (list Z)) (common_words : option (list string))
    : gset string :=
  let expanded := usernames in
  (* Add original usernames *)
  let expanded := expanded ∪ usernames in
  (* Add numbers *)
  let expanded :=
    if list_truthy numbers then
      for_each (elements usernames) (λ username,
        for_each (items numbers) (λ num expanded,
          let expanded := add (username +:+ py_str num) expanded in
          let expanded := add (username +:+ "." +:+ py_str num) expanded in
          let expanded := add (username +:+ "_" +:+ py_str num) expanded in
          add (username +:+ "-" +:+ py_str num) expanded)) expanded
    else expanded in
  (* Add years *)
  let expanded :=
    if list_truthy years then
      for_each (elements usernames) (λ username,
        for_each (items years) (λ year expanded,
          let expanded := add (username +:+ py_str year) expanded in
          add (username +:+ Str.slice_from2 (py_str year)) expanded)) expanded
    else expanded in
  (* Add common words *)
  let expanded :=
    if list_truthy common_words then
      for_each (elements usernames) (λ username,
        for_each (items common_words) (λ word expanded,
          let expanded := add (username +:+ word) expanded in
          let expanded := add (username +:+ "." +:+ word) expanded in
          let expanded := add (username +:+ "_" +:+ word) expanded in
          add (username +:+ "-" +:+ word) expanded)) expanded
    else expanded in
  expanded.

(** The substitution table: a letter and its replacements, in the order
    of the dictionary literal. *)
Definition l33t_map : list (ascii * list string) :=
  [ ("a"%char, ["4"; "@"]);
    ("e"%char, ["3"]);
    ("i"%char, ["1"; "!"]);
    ("o"%char, ["0"]);
    ("s"%char, ["5"; "$"]);
    ("t"%char, ["7"]);
    ("l"%char, ["1"]);
    ("g"%char, ["9"]) ].

(** [s.replace(char, replacement, 1)] for a one-character [char]: the
    first occurrence of [char], if there is one, becomes [replacement]. *)
Fixpoint replace_first (char : ascii) (replacement : string) (s : string)
    : string :=
  match s with
  | EmptyString => EmptyString
  | String c s' =>
      if bool_decide (c = char) then replacement +:+ s'
      else String c (replace_first char replacement s')
  end.

Definition add_l33t_speak (usernames : gset string) : gset string :=
  let l33t_variants : gset string := ∅ in
  for_each (elements usernames) (λ username,
    (* Apply single character substitution *)
    for_each l33t_map (λ '(char, replacements) l33t_variants,
      if Str.mem char username then
        for_each replacements (λ replacement l33t_variants,
          add (replace_first char replacement username) l33t_variants)
          l33t_variants
      else l33t_variants)) l33t_variants.

(** [s.upper()], on an ASCII string: other characters are left as they
    are here, where Python maps them by the Unicode tables. *)
Definition upper (s : string) : string := Str.map Chars.to_upper s.

(** [s.lower()], on an ASCII string. *)
Definition lower (s : string) : string := Str.map Chars.to_lower s.

(** [s.capitalize()]: the first character upper-cased, the others
    lower-cased. *)
Definition capitalize (s : string) : string :=
  match s with
  | EmptyString => EmptyString
  | String c s' => String (Chars.to_upper c) (lower s')
  end.

(** [s.title()]: a letter that follows a letter is lower-cased, any
    other letter is upper-cased. *)
Fixpoint title_from (previous_is_cased : bool) (s : string) : string :=
  match s with
  | EmptyString => EmptyString
  | String c s' =>
      String (if previous_is_cased then Chars.to_lower c
              else Chars.to_upper c)
             (title_from (Chars.is_cased c) s')
  end.

Definition title (s : string) : string := title_from false s.

Definition add_caps_variations (usernames : gset string) (caps_type : string)
    : gset string :=
  let caps_variants : gset string := ∅ in
  for_each (elements usernames) (λ username caps_variants,
    if bool_decide (caps_type = "all") then
      let caps_variants := add (upper username) caps_variants in
      let caps_variants := add (capitalize username) caps_variants in
      add (title username) caps_variants
    else if bool_decide (caps_type = "first") then
      add (capitalize username) caps_variants
    else if bool_decide (caps_type = "upper") then
      add (upper username) caps_variants
    else caps_variants) caps_variants.

(** ** Exceptions and the call trace *)

(** The one exception the pipeline can raise: [int] and tuple unpacking
    both raise [ValueError]. *)
Inductive exn := ValueError.

Inductive result (A : Type) :=
  | Return (a : A)
  | Raise (e : exn).
Arguments Return {A} a.
Arguments Raise {A} e.

Definition result_bind {A B} (r : result A) (k : A → result B) : result B :=
  match r with
  | Return a => k a
  | Raise e => Raise e
  end.

Fixpoint result_map_list {A B} (f : A → result B) (xs : list A)
    : result (list B) :=
  match xs with
  | [] => Return []
  | x :: xs' =>
      result_bind (f x) (λ y,
      result_bind (result_map_list f xs') (λ ys, Return (y :: ys)))
  end.

(** ** Parsing of the numeric specifications *)

Module Parse.

(** Dropping the leading, the trailing, and both runs of the characters
    that [space] accepts. *)
Fixpoint lstrip_of (space : ascii → bool) (s : string) : string :=
  match s with
  | EmptyString => EmptyString
  | String c s' => if space c then lstrip_of space s' else s
  end.

Definition rstrip_of (space : ascii → bool) (s : string) : string :=
  String.rev (lstrip_of space (String.rev s)).

Definition strip_of (space : ascii → bool) (s : string) : string :=
  rstrip_of space (lstrip_of space s).

(** [s.strip()] *)
Definition strip (s : string) : string := strip_of Chars.is_space s.

(** [s.split(sep)] for a one-character separator: the pieces between
    the occurrences of [sep], empty pieces included. *)
Fixpoint split_on (sep : ascii) (s : string) : list string :=
  match s with
  | EmptyString => [EmptyString]
  | String c s' =>
      if bool_decide (c = sep) then EmptyString :: split_on sep s'
      else
        match split_on sep s' with
        | [] => [String c EmptyString]
        | piece :: pieces => String c piece :: pieces
        end
  end.

(** [s.split()]: the maximal runs of non-whitespace characters. *)
Fixpoint split_ws_from (word : string) (s : string) : list string :=
  match s with
  | EmptyString =>
      if Str.truthy word then [String.rev word] else []
  | String c s' =>
      if Chars.is_space c then
        if Str.truthy word then String.rev word :: split_ws_from "" s'
        else split_ws_from "" s'
      else split_ws_from (String c word) s'
  end.

Definition split_ws (s : string) : list string := split_ws_from "" s.

Definition digit_value (c : ascii) : Z := Z.of_N (Chars.code c) - 48.

(** Where the scan of a numeral stands: nothing read yet, after a
    digit, or after an underscore. *)
Inductive scan := AtStart | AfterDigit | AfterUnderscore.

(** The digits of a base ten literal: at least one digit, single
    underscores allowed between digits. *)
Fixpoint digits (st : scan) (acc : Z) (s : string) : result Z :=
  match s with
  | EmptyString =>
      match st with
      | AfterDigit => Return acc
      | _ => Raise ValueError
      end
  | String c s' =>
      if Chars.is_digit c then
        digits AfterDigit (10 * acc + digit_value c) s'
      else if bool_decide (c = "_"%char) then
        match st with
        | AfterDigit => digits AfterUnderscore acc s'
        | _ => Raise ValueError
        end
      else Raise ValueError
  end.

(** [int(s)] on an ASCII string: surrounding whitespace is dropped, a
    sign may come first, then the digits.  Outside the model: the
    decimal digits and the whitespace of Unicode beyond ASCII, which
    [int] accepts too, and the interpreter's optional cap on the number
    of digits.  The properties below that speak of integers take what
    [int] returns as a hypothesis. *)
Definition int (s : string) : result Z :=
  match strip_of Chars.is_int_space s with
  | String "-" s' => result_bind (digits AtStart 0 s') (λ n, Return (- n))
  | String "+" s' => digits AtStart 0 s'
  | s' => digits AtStart 0 s'
  end.

(** [list(range(lo, hi))] *)
Definition range (lo hi : Z) : list Z := seqZ lo (hi - lo).

End Parse.

Definition parse_numbers (num_string : string) : result (list Z) :=
  let numbers : list Z := [] in
  if negb (Str.truthy num_string) then Return numbers else
  if Str.mem "-" num_string then
    match Parse.split_on "-" num_string with
    | [start; end_] =>
        result_bind (Parse.int start) (λ lo,
        result_bind (Parse.int end_) (λ hi,
        Return (Parse.range lo (hi + 1))))
    | _ => Raise ValueError
    end
  else if Str.mem "," num_string then
    result_map_list (λ n, Parse.int (Parse.strip n))
                    (Parse.split_on "," num_string)
  else
    result_bind (Parse.int num_string) (λ n, Return [n]).

Definition parse_years (year_string : string) : result (list Z) :=
  let years : list Z := [] in
  if negb (Str.truthy year_string) then Return years else
  if Str.mem "-" year_string then
    match Parse.split_on "-" year_string with
    | [start; end_] =>
        result_bind (Parse.int start) (λ lo,
        result_bind (Parse.int end_) (λ hi,
        Return (Parse.range lo (hi + 1))))
    | _ => Raise ValueError
    end
  else if Str.mem "," year_string then
    result_map_list (λ y, Parse.int (Parse.strip y))
                    (Parse.split_on "," year_string)
  else
    result_bind (Parse.int year_string) (λ y, Return [y]).

(** ** Cleaning a raw name *)

(** [re.sub(r"\s+", ' ', s)]: every maximal run of whitespace becomes
    one space.  [in_run] tells that the previous character was
    whitespace. *)
Fixpoint collapse_ws_from (in_run : bool) (s : string) : string :=
  match s with
  | EmptyString => EmptyString
  | String c s' =>
      if Chars.is_space c then
        if in_run then collapse_ws_from true s'
        else String " " (collapse_ws_from true s')
      else String c (collapse_ws_from false s')
  end.

(** The characters [[a-z0-9\s'-]] that the first substitution keeps. *)
Definition is_name_char (c : ascii) : bool :=
  Chars.is_lower_alnum c || Chars.is_space c
  || bool_decide (c = "'"%char) || bool_decide (c = "-"%char).

(** The characters of a token of a cleaned name: [[a-z0-9'-]]. *)
Definition is_token_char (c : ascii) : bool :=
  Chars.is_lower_alnum c
  || bool_decide (c = "'"%char) || bool_decide (c = "-"%char).

(** The characters of a cleaned name: those of a token and the space. *)
Definition is_clean_char (c : ascii) : bool :=
  is_token_char c || bool_decide (c = " "%char).

(** The characters of a raw name that end up in a token: ASCII letters
    of either case, digits, the apostrophe and the hyphen. *)
Definition is_word_char (c : ascii) : bool :=
  Chars.is_lower c || Chars.is_upper c || Chars.is_digit c
  || bool_decide (c = "'"%char) || bool_decide (c = "-"%char).

(** [clean] on an ASCII string.  On ASCII text the NFKD normalisation is
    the identity and no character is a combining mark, so the two
    [unicodedata] steps leave the string as it is; on other text they
    can turn an accented letter into an ASCII one, which this
    definition does not follow.  What is proved of [clean] below either
    rests on its last two steps alone, which are the same on any text,
    or is stated for ASCII names. *)
Definition clean (s : string) : string :=
  let s := lower (Parse.strip s) in
  let s := Str.filter is_name_char s in
  let s := collapse_ws_from false s in
  s.

(** [usernames.update(add_l33t_speak(usernames))] *)
Definition leet_pass (usernames : gset string) : gset string :=
  usernames ∪ add_l33t_speak usernames.

(** [usernames.update(add_caps_variations(usernames, caps_type))] *)
Definition caps_pass (caps_type : string) (usernames : gset string)
    : gset string :=
  usernames ∪ add_caps_variations usernames caps_type.

(** ** Processing one name *)

(** The command line, as [argparse] hands it over. *)
Module Args.
Record t := Make {
  names : option (list string);
  input : option string;
  format : option (list string);
  numbers : option string;
  years : option string;
  words : option string;
  leet : bool;
  caps : string;
  sort : bool
}.
End Args.

(** Python truthiness of an optional string: [None] and [''] are false. *)
Definition opt_truthy (o : option string) : bool :=
  match o with
  | Some s => Str.truthy s
  | None => false
  end.

(** What a run has done so far that the properties speak about: the
    calls of [generate_variants], in order. *)
Inductive event :=
  | Generate (first last middle : string).

(** A computation that records events and may raise. *)
Definition M (A : Type) : Type := list event * result A.

Definition ret {A} (a : A) : M A := ([], Return a).

Definition bind {A B} (c : M A) (k : A → M B) : M B :=
  match c with
  | (t, Return a) => let '(t', r) := k a in (t ++ t', r)
  | (t, Raise e) => (t, Raise e)
  end.

Definition lift {A} (r : result A) : M A := ([], r).

Definition emit (e : event) : M unit := ([e], Return tt).

Notation "'do' x <- c ;; k" := (bind c (λ x, k))
  (at level 10, x pattern, c at level 99, k at level 200).

(** [generate_variants(first, last, middle, formats)], recorded. *)
Definition call_generate_variants
    (first last middle : string) (formats : option (list string))
    : M (gset string) :=
  do _ <- emit (Generate first last middle) ;;
  ret (generate_variants first last middle formats).

(** [parse(x) if x else None] *)
Definition parse_if_given (parse : string → result (list Z))
    (o : option string) : M (option (list Z)) :=
  if opt_truthy o then
    do v <- lift (parse (default "" o)) ;; ret (Some v)
  else ret None.

Definition process_name (name : string) (args : Args.t)
    : M (gset string) :=
  let cleaned := clean name in
  let parts := Parse.split_ws cleaned in
  match parts with
  | [] => ret ∅
  | p0 :: rest =>
      (* Extract first, middle, last *)
      let '(first, middle, last) :=
        match rest with
        | [] => (p0, "", "")
        | [p1] => (p0, "", p1)
        | p1 :: _ => (p0, p1, List.last parts "")
        end in
      (* Generate base variants *)
      do usernames <- call_generate_variants first last middle
                    (Args.format args) ;;
      (* Add suffixes if requested *)
      do usernames <-
        (if opt_truthy (Args.numbers args) || opt_truthy (Args.years args)
            || opt_truthy (Args.words args) then
           do numbers <- parse_if_given parse_numbers (Args.numbers args) ;;
           do years <- parse_if_given parse_years (Args.years args) ;;
           let words :=
             if opt_truthy (Args.words args)
             then Some (Parse.split_on "," (default "" (Args.words args)))
             else None in
           ret (add_suffixes usernames numbers years words)
         else ret usernames) ;;
      (* Add l33t speak if requested *)
      let usernames :=
        if Args.leet args then leet_pass usernames else usernames in
      (* Add capitalization variations *)
      let usernames :=
        if negb (bool_decide (Args.caps args = "none")) then
          caps_pass (Args.caps args) usernames
        else usernames in
      ret usernames
  end.

(** The steps of [process_name] on their own, to state its properties:
    the name parts taken from the tokens, the parsed suffix
    specifications, and the passes that follow the generation. *)
Definition name_parts (parts : list string) : string * string * string :=
  match parts with
  | [] => ("", "", "")
  | [p0] => (p0, "", "")
  | [p0; p1] => (p0, "", p1)
  | p0 :: p1 :: _ => (p0, p1, List.last parts "")
  end.

Definition parse_opt (parse : string → result (list Z)) (o : option string)
    : result (option (list Z)) :=
  if opt_truthy o then result_bind (parse (default "" o)) (λ v, Return (Some v))
  else Return None.

Definition suffix_specs (args : Args.t)
    : result (option (list Z) * option (list Z) * option (list string)) :=
  if opt_truthy (Args.numbers args) || opt_truthy (Args.years args)
     || opt_truthy (Args.words args) then
    result_bind (parse_opt parse_numbers (Args.numbers args)) (λ numbers,
    result_bind (parse_opt parse_years (Args.years args)) (λ years,
    Return (numbers, years,
            if opt_truthy (Args.words args)
            then Some (Parse.split_on "," (default "" (Args.words args)))
            else None)))
  else Return (None, None, None).

Definition leet_if (enabled : bool) (usernames : gset string) : gset string :=
  if enabled then add_l33t_speak usernames else ∅.

Definition caps_if (caps_type : string) (usernames : gset string)
    : gset string :=
  if bool_decide (caps_type = "none") then ∅
  else add_caps_variations usernames caps_type.

(** A name is usable when cleaning leaves at least one token. *)
Definition usable (name : string) : bool :=
  match Parse.split_ws (clean name) with
  | [] => false
  | _ => true
  end.

(** ** The program *)

(** [sorted(s)] on a set of strings: its elements in increasing order of
    their characters' codes. *)
Definition sorted (s : gset string) : list string :=
  merge_sort String.le (elements s).

(** What the program reads from outside: the lines of the file named by
    [--input] ([None] when it cannot be read) and the lines of standard
    input ([None] when it is a terminal). *)
Record env := {
  read_file : string → option (list string);
  stdin : option (list string)
}.

(** [[line.strip() for line in f if line.strip()]] *)
Definition usable_lines (lines : list string) : list string :=
  Parse.strip <$> List.filter (λ line, Str.truthy (Parse.strip line)) lines.

(** How a run ends: [sys.exit(1)] after an error message, an uncaught
    exception, or the sequence of usernames handed to the output loop. *)
Inductive outcome :=
  | Exit1 (message : string)
  | Uncaught (e : exn)
  | Output (lines : list string).

(** The accumulation loop of [main]. *)
Fixpoint collect (names : list string) (args : Args.t)
    (all_usernames : gset string) : M (gset string) :=
  match names with
  | [] => ret all_usernames
  | name :: names' =>
      do usernames <- process_name name args ;;
      collect names' args (all_usernames ∪ usernames)
  end.

(** The names the program works on, or the message it exits with. *)
Definition read_names (args : Args.t) (e : env) : string + list string :=
  if list_truthy (Args.names args) then inr (items (Args.names args))
  else if opt_truthy (Args.input args) then
    match read_file e (default "" (Args.input args)) with
    | Some lines => inr (usable_lines lines)
    | None => inl "Error reading input file"
    end
  else
    match stdin e with
    | Some lines => inr (usable_lines lines)
    | None => inl "usage"
    end.

Definition main (args : Args.t) (e : env) : list event * outcome :=
  match read_names args e with
  | inl message => ([], Exit1 message)
  | inr names =>
      match names with
      | [] => ([], Exit1 "Error: No names provided")
      | _ =>
          (* Generate usernames *)
          match collect names args ∅ with
          | (t, Raise ex) => (t, Uncaught ex)
          | (t, Return all_usernames) =>
              (* Sort if requested *)
              let all_usernames :=
                if Args.sort args then sorted all_usernames
                else sorted all_usernames  (* Still sort for consistency *)
              in
              (t, Output all_usernames)
          end
      end
  end.

(** The aggregation of [main] on its own: the union of the per-name
    sets, then the sort of either branch. *)
Definition aggregate (sort : bool) (per_name : list (gset string))
    : list string :=
  let all_usernames :=
    for_each per_name (λ usernames all_usernames,
      all_usernames ∪ usernames) ∅ in
  if sort then sorted all_usernames else sorted all_usernames.

(** The suffix pass as [process_name] runs it on the accumulated set. *)
Definition suffix_pass (numbers years : option (list Z))
    (words : option (list string)) (usernames : gset string) : gset string :=
  add_suffixes usernames numbers years words.

(** A specification that is given and that its parser rejects. *)
Definition rejected (parse : string → result (list Z)) (o : option string)
    : bool :=
  opt_truthy o &&
  match parse (default "" o) with
  | Raise _ => true
  | Return _ => false
  end.

(** A configuration whose numbers or years specification is malformed. *)
Definition malformed (args : Args.t) : bool :=
  rejected parse_numbers (Args.numbers args)
  || rejected parse_years (Args.years args).

(** The command line with the [--sort] flag set to [b]. *)
Definition with_sort (b : bool) (args : Args.t) : Args.t :=
  Args.Make (Args.names args) (Args.input args) (Args.format args)
            (Args.numbers args) (Args.years args) (Args.words args)
            (Args.leet args) (Args.caps args) b.

(** Command lines and an environment for the examples. *)
Definition no_env : env := {| read_file := λ _, None; stdin := None |}.

Definition args_of_names (names : list string) (numbers : option string)
    : Args.t :=
  Args.Make (Some names) None (Some ["all"]) numbers None None
            false "none" false.

Definition args_passes : Args.t :=
  Args.Make (Some ["John Doe"]) None (Some ["standard"]) (Some "1-2")
            None None true "upper" false.

(** * Properties *)

(** ** Strings *)

Section StringFacts.
Implicit Types (s t : string) (c : ascii) (p : ascii → bool).

Lemma truthy_true s : Str.truthy s = true ↔ s ≠ "".
Proof. destruct s; simpl; split; congruence. Qed.

Lemma truthy_false s : Str.truthy s = false ↔ s = "".
Proof. destruct s; simpl; split; congruence. Qed.

Lemma truthy_app s t :
  Str.truthy (s +:+ t) = Str.truthy s || Str.truthy t.
Proof. destruct s; reflexivity. Qed.

Lemma truthy_index0 s : Str.truthy (Str.index0 s) = Str.truthy s.
Proof. destruct s; reflexivity. Qed.

Lemma forallb_app p s t :
  Str.forallb p (s +:+ t) = Str.forallb p s && Str.forallb p t.
Proof.
  induction s as [|c s IH]; simpl; [reflexivity|].
  rewrite IH. apply andb_assoc.
Qed.

Lemma forallb_index0 p s :
  Str.forallb p s = true → Str.forallb p (Str.index0 s) = true.
Proof.
  destruct s as [|c s]; simpl; [reflexivity|].
  intros [-> _]%andb_true_iff. reflexivity.
Qed.

Lemma forallb_filter p s : Str.forallb p (Str.filter p s) = true.
Proof.
  induction s as [|c s IH]; simpl; [reflexivity|].
  destruct (p c) eqn:Hc; simpl; [rewrite Hc|]; exact IH.
Qed.

Lemma forallb_impl p q s :
  (∀ c, p c = true → q c = true) →
  Str.forallb p s = true → Str.forallb q s = true.
Proof.
  intros Hpq. induction s as [|c s IH]; simpl; [reflexivity|].
  intros [Hc Hs]%andb_true_iff. rewrite (Hpq _ Hc), (IH Hs). reflexivity.
Qed.

Lemma filter_id p s : Str.forallb p s = true → Str.filter p s = s.
Proof.
  induction s as [|c s IH]; simpl; [reflexivity|].
  intros [-> Hs]%andb_true_iff. rewrite (IH Hs). reflexivity.
Qed.

Lemma length_app s t :
  String.length (s +:+ t) = (String.length s + String.length t)%nat.
Proof. induction s as [|c s IH]; simpl; [reflexivity|]. rewrite IH. reflexivity. Qed.

Lemma app_assoc s t u : (s +:+ t) +:+ u = s +:+ t +:+ u.
Proof.
  induction s as [|c s IH]; [reflexivity|].
  change (String c ((s +:+ t) +:+ u) = String c (s +:+ t +:+ u)).
  f_equal. exact IH.
Qed.

Lemma count_app c s t : Str.count c (s +:+ t) = (Str.count c s + Str.count c t)%nat.
Proof. induction s as [|d s IH]; simpl; [reflexivity|]. rewrite IH. lia. Qed.

Lemma count_forallb_0 p c s :
  p c = false → Str.forallb p s = true → Str.count c s = 0%nat.
Proof.
  intros Hc. induction s as [|d s IH]; simpl; [reflexivity|].
  intros [Hd Hs]%andb_true_iff. rewrite (IH Hs).
  case_bool_decide; [subst; congruence | reflexivity].
Qed.

Lemma count_index0_le c s : (Str.count c (Str.index0 s) ≤ Str.count c s)%nat.
Proof. destruct s; simpl; lia. Qed.

(** A string is cut in one way only at the first occurrence of a
    character. *)
Lemma app_sep_inj c s s' t t' :
  Str.count c s = 0%nat → Str.count c s' = 0%nat →
  s +:+ String c t = s' +:+ String c t' → s = s' ∧ t = t'.
Proof.
  revert s'. induction s as [|d s IH]; intros [|d' s']; simpl.
  - intros _ _ [= ->]. done.
  - case_bool_decide; [lia|]. intros _ _ [= <- _]. done.
  - case_bool_decide; [lia|]. intros _ _ [= -> _]. done.
  - repeat case_bool_decide; try lia. intros Hs Hs' [= -> Heq].
    destruct (IH s' Hs Hs' Heq) as [-> ->]. done.
Qed.

End StringFacts.

(** ** Sets and loops *)

Lemma elem_of_add v x (s : gset string) : v ∈ add x s ↔ v ∈ s ∨ v = x.
Proof. unfold add. set_solver. Qed.

Lemma py_in_true x xs : py_in x xs = true ↔ x ∈ xs.
Proof. unfold py_in. apply bool_decide_eq_true. Qed.

(** A loop whose body only ever adds to the set: what is in the result
    was there before or was added by some iteration. *)
Lemma elem_of_for_each {A} (xs : list A)
    (body : A → gset string → gset string) (added : A → string → Prop)
    (s : gset string) v :
  (∀ x s' w, w ∈ body x s' ↔ w ∈ s' ∨ added x w) →
  v ∈ for_each xs body s ↔ v ∈ s ∨ ∃ x, x ∈ xs ∧ added x v.
Proof.
  intros Hbody. unfold for_each. revert s.
  induction xs as [|x xs IH]; intros s; simpl.
  - split; [auto|]. intros [?|(x & Hx & _)]; [done|]. by apply elem_of_nil in Hx.
  - rewrite IH, Hbody. split.
    + intros [[?|?]|(y & Hy & ?)]; [by left|right..].
      * exists x. split; [left|done].
      * exists y. split; [by right|done].
    + intros [?|(y & Hy & ?)]; [by left; left|].
      apply elem_of_cons in Hy as [->|Hy]; [by left; right|].
      right. by exists y.
Qed.

(** ** The variant generator *)

Section Variants.
Context (formats : list string) (f l m : string).
Implicit Types (v : string) (s : gset string).

Local Abbreviation f0 := (Str.index0 f).
Local Abbreviation l0 := (Str.index0 l).
Local Abbreviation m0 := (Str.index0 m).

Local Ltac block :=
  intros;
  repeat match goal with
         | |- context [py_in ?c formats] => destruct (py_in c formats)
         | |- context [Str.truthy ?x] => destruct (Str.truthy x)
         end;
  simpl; rewrite ?elem_of_add; intuition congruence.

Lemma elem_of_standard_formats v s :
  v ∈ standard_formats formats f l m s ↔
    v ∈ s ∨ (py_in "standard" formats = true ∧
      (v = f
       ∨ (Str.truthy l = true ∧ (v = f +:+ l ∨ v = l +:+ f))
       ∨ (Str.truthy m = true ∧ (v = f +:+ m ∨ v = f +:+ m +:+ l)))).
Proof. unfold standard_formats. block. Qed.

Lemma elem_of_dotted_formats v s :
  v ∈ dotted_formats formats f l m s ↔
    v ∈ s ∨ (py_in "dotted" formats = true ∧ Str.truthy l = true ∧
      (v = f +:+ "." +:+ l ∨ v = l +:+ "." +:+ f
       ∨ v = f0 +:+ "." +:+ l ∨ v = f +:+ "." +:+ l0
       ∨ (Str.truthy m = true ∧
            (v = f +:+ "." +:+ m +:+ "." +:+ l
             ∨ v = f0 +:+ "." +:+ m0 +:+ "." +:+ l)))).
Proof. unfold dotted_formats. block. Qed.

Lemma elem_of_underscored_formats v s :
  v ∈ underscored_formats formats f l m s ↔
    v ∈ s ∨ (py_in "underscored" formats = true ∧ Str.truthy l = true ∧
      (v = f +:+ "_" +:+ l ∨ v = l +:+ "_" +:+ f
       ∨ v = f0 +:+ "_" +:+ l ∨ v = f +:+ "_" +:+ l0
       ∨ (Str.truthy m = true ∧ v = f +:+ "_" +:+ m +:+ "_" +:+ l))).
Proof. unfold underscored_formats. block. Qed.

Lemma elem_of_dashed_formats v s :
  v ∈ dashed_formats formats f l s ↔
    v ∈ s ∨ (py_in "dashed" formats = true ∧ Str.truthy l = true ∧
      (v = f +:+ "-" +:+ l ∨ v = l +:+ "-" +:+ f
       ∨ v = f0 +:+ "-" +:+ l ∨ v = f +:+ "-" +:+ l0)).
Proof. unfold dashed_formats. block. Qed.

Lemma elem_of_initial_formats v s :
  v ∈ initial_formats formats f l m s ↔
    v ∈ s ∨ (py_in "initial" formats = true ∧ Str.truthy l = true ∧
      (v = f0 +:+ l ∨ v = l +:+ f0 ∨ v = f +:+ l0 ∨ v = l0 +:+ f
       ∨ (Str.truthy m = true ∧
            (v = f0 +:+ m0 +:+ l ∨ v = f +:+ m0 +:+ l0)))).
Proof. unfold initial_formats. block. Qed.

Lemma elem_of_reversed_formats v s :
  v ∈ reversed_formats formats f l s ↔
    v ∈ s ∨ (py_in "reversed" formats = true ∧ Str.truthy l = true ∧
      (v = l ∨ v = l +:+ f ∨ v = l +:+ "." +:+ f
       ∨ v = l +:+ "_" +:+ f ∨ v = l +:+ "-" +:+ f)).
Proof. unfold reversed_formats. block. Qed.

End Variants.

(** The middle name is cleaned like the other two: the test on [middle]
    only spares the substitution on an empty string. *)
Lemma middle_cleaned middle :
  (if Str.truthy middle then strip_non_alnum middle else "")
  = strip_non_alnum middle.
Proof. destruct middle; reflexivity. Qed.

(** Membership in the result of [generate_variants], block by block. *)
Lemma elem_of_generate_variants first last middle formats v :
  let f := strip_non_alnum first in
  let l := strip_non_alnum last in
  let m := strip_non_alnum middle in
  let fs := resolve_formats formats in
  v ∈ generate_variants first last middle formats ↔
    Str.truthy f = true ∧
    (v ∈ reversed_formats fs f l
           (initial_formats fs f l m
              (dashed_formats fs f l
                 (underscored_formats fs f l m
                    (dotted_formats fs f l m
                       (standard_formats fs f l m ∅)))))).
Proof.
  intros f l m fs. unfold generate_variants.
  rewrite middle_cleaned. fold f l m fs.
  destruct (Str.truthy f); simpl.
  - split; [by split|by intros [_ ?]].
  - split; [set_solver|by intros [? _]].
Qed.

(** Taking a membership hypothesis of [generate_variants] apart into one
    goal per generated form. *)
Ltac variant_cases H :=
  apply elem_of_generate_variants in H; simpl in H;
  rewrite elem_of_reversed_formats, elem_of_initial_formats,
    elem_of_dashed_formats, elem_of_underscored_formats,
    elem_of_dotted_formats, elem_of_standard_formats in H;
  repeat match goal with
         | H : _ ∧ _ |- _ => destruct H
         | H : _ ∨ _ |- _ => destruct H
         | H : _ ∈ ∅ |- _ => by apply not_elem_of_empty in H
         end.

Lemma cleaned_username_chars s :
  Str.forallb Chars.is_username_char (strip_non_alnum s) = true.
Proof.
  apply forallb_impl with (p := Chars.is_lower_alnum).
  - intros c Hc. unfold Chars.is_username_char. by rewrite Hc.
  - apply forallb_filter.
Qed.

(** C10. Every string that [generate_variants] returns is non-empty and
    is made of lowercase ASCII letters, digits and the separators
    ['.'], ['_'] and ['-'] only, whatever the name parts and the format
    selection are. *)
Theorem generate_variants_wellformed first last middle formats v :
  v ∈ generate_variants first last middle formats →
  v ≠ "" ∧ Str.forallb Chars.is_username_char v = true.
Proof.
  intros Hv.
  pose proof (cleaned_username_chars first) as Hcf.
  pose proof (cleaned_username_chars last) as Hcl.
  pose proof (cleaned_username_chars middle) as Hcm.
  variant_cases Hv; subst v;
    (split;
     [ apply truthy_true;
       rewrite ?truthy_app, ?truthy_index0;
       repeat match goal with
              | H : Str.truthy _ = true |- _ => rewrite H
              end;
       simpl; rewrite ?orb_true_r; reflexivity
     | rewrite ?forallb_app, ?(forallb_index0 _ _ Hcf),
         ?(forallb_index0 _ _ Hcl), ?(forallb_index0 _ _ Hcm),
         ?Hcf, ?Hcl, ?Hcm;
       reflexivity ]).
Qed.

Lemma generate_variants_wellformed_witness :
  "j.doe" ≠ "" ∧ Str.forallb Chars.is_username_char "j.doe" = true.
Proof.
  apply (generate_variants_wellformed "john" "doe!" "" None).
  vm_compute. reflexivity.
Defined.

(** Without a usable first name nothing is generated. *)
Lemma generate_variants_no_first first last middle formats :
  strip_non_alnum first = "" →
  generate_variants first last middle formats = ∅.
Proof. intros Hf. unfold generate_variants. rewrite Hf. reflexivity. Qed.

(** C2, as stated, fails: the bare first name is added by the standard
    block only, so a selection without [standard] can leave it out, and
    with no last name it leaves the result empty. *)
Lemma generate_variants_empty_without_standard :
  strip_non_alnum "john" ≠ ""
  ∧ generate_variants "john" "" "" (Some ["dotted"]) = ∅
  ∧ "john" ∉ generate_variants "john" "doe" "" (Some ["dotted"]).
Proof. split; [done|]. split; by vm_compute. Qed.

(** C2, amended. When the standard category is enabled (listed, or
    through ['all'] or an unspecified selection), a non-empty cleaned
    first name is in the result, and the result is empty exactly when
    the cleaned first name is empty. *)
Theorem generate_variants_standard_first first last middle formats :
  enabled "standard" formats = true →
  let f := strip_non_alnum first in
  let variants := generate_variants first last middle formats in
  (f ≠ "" → f ∈ variants) ∧ (variants = ∅ ↔ f = "").
Proof.
  intros Hstd f variants.
  assert (f ≠ "" → f ∈ variants) as Hin.
  { intros Hf%truthy_true. apply elem_of_generate_variants. split; [done|].
    rewrite elem_of_reversed_formats, elem_of_initial_formats,
      elem_of_dashed_formats, elem_of_underscored_formats,
      elem_of_dotted_formats, elem_of_standard_formats.
    do 5 left. right. split; [exact Hstd|]. by left. }
  split; [exact Hin|]. split.
  - intros Hempty. destruct (decide (f = "")) as [|Hf]; [done|].
    apply Hin in Hf. rewrite Hempty in Hf. by apply not_elem_of_empty in Hf.
  - apply generate_variants_no_first.
Qed.

Lemma generate_variants_standard_first_witness :
  ("john" ≠ "" → "john" ∈ generate_variants "john" "doe" "" None)
  ∧ (generate_variants "john" "doe" "" None = ∅ ↔ "john" = "").
Proof.
  apply (generate_variants_standard_first "john" "doe" "" None).
  vm_compute. reflexivity.
Defined.

(** Separators in a generated variant: at most one dash, and at most
    one underscore except in the underscored form with the middle
    name. *)
Lemma separators_in_variants first last middle formats v :
  let f := strip_non_alnum first in
  let l := strip_non_alnum last in
  let m := strip_non_alnum middle in
  v ∈ generate_variants first last middle formats →
  (Str.count "-" v ≤ 1)%nat
  ∧ ((Str.count "_" v ≤ 1)%nat ∨ v = f +:+ "_" +:+ m +:+ "_" +:+ l).
Proof.
  intros f l m Hv.
  assert (∀ c s, Chars.is_lower_alnum c = false →
            Str.count c (strip_non_alnum s) = 0%nat
            ∧ Str.count c (Str.index0 (strip_non_alnum s)) = 0%nat) as Hz.
  { intros c s Hc.
    assert (Str.count c (strip_non_alnum s) = 0%nat) as H0
      by (eapply count_forallb_0; [exact Hc | apply forallb_filter]).
    split; [exact H0|]. pose proof (count_index0_le c (strip_non_alnum s)). lia. }
  destruct (Hz "-"%char first eq_refl) as [Hf1 Hf2].
  destruct (Hz "-"%char last eq_refl) as [Hl1 Hl2].
  destruct (Hz "-"%char middle eq_refl) as [Hm1 Hm2].
  destruct (Hz "_"%char first eq_refl) as [Hf3 Hf4].
  destruct (Hz "_"%char last eq_refl) as [Hl3 Hl4].
  destruct (Hz "_"%char middle eq_refl) as [Hm3 Hm4].
  clear Hz. fold f l m in Hf1, Hf2, Hl1, Hl2, Hm1, Hm2, Hf3, Hf4, Hl3, Hl4, Hm3, Hm4.
  variant_cases Hv; subst v; fold f l m;
    (split;
     [ rewrite ?count_app, ?Hf1, ?Hf2, ?Hl1, ?Hl2, ?Hm1, ?Hm2; simpl; lia
     | first [ left;
               rewrite ?count_app, ?Hf3, ?Hf4, ?Hl3, ?Hl4, ?Hm3, ?Hm4;
               simpl; lia
             | right; reflexivity ] ]).
Qed.

(** C1, as stated, fails: the underscored block adds the full
    first_middle_last form but not the one built from the initials. *)
Lemma underscored_initials_form_missing :
  enabled "underscored" None = true
  ∧ Str.index0 "john" +:+ "_" +:+ Str.index0 "michael" +:+ "_" +:+ "doe"
      ∉ generate_variants "john" "doe" "michael" None.
Proof. split; by vm_compute. Qed.

(** C1, amended. For name parts whose cleaned first, last and middle
    names are non-empty: with [dotted] enabled the result holds both
    [f.m.l] and [f[0].m[0].l]; with [underscored] enabled it holds
    [f_m_l], and it holds [f[0]_m[0]_l] only where that is [f_m_l]
    itself, first and middle name being one character each; and it
    never holds [f-m-l] or [f[0]-m[0]-l], with [dashed] enabled or
    not. *)
Theorem middle_combinations first last middle formats :
  let f := strip_non_alnum first in
  let l := strip_non_alnum last in
  let m := strip_non_alnum middle in
  let variants := generate_variants first last middle formats in
  f ≠ "" → l ≠ "" → m ≠ "" →
  (enabled "dotted" formats = true →
     f +:+ "." +:+ m +:+ "." +:+ l ∈ variants
     ∧ Str.index0 f +:+ "." +:+ Str.index0 m +:+ "." +:+ l ∈ variants)
  ∧ (enabled "underscored" formats = true →
       f +:+ "_" +:+ m +:+ "_" +:+ l ∈ variants)
  ∧ (Str.index0 f +:+ "_" +:+ Str.index0 m +:+ "_" +:+ l ∈ variants →
       Str.index0 f = f ∧ Str.index0 m = m)
  ∧ (f +:+ "-" +:+ m +:+ "-" +:+ l ∉ variants)
  ∧ (Str.index0 f +:+ "-" +:+ Str.index0 m +:+ "-" +:+ l ∉ variants).
Proof.
  intros f l m variants Hf%truthy_true Hl%truthy_true Hm%truthy_true.
  assert (∀ v, v ∈ variants ↔
            v ∈ reversed_formats (resolve_formats formats) f l
                  (initial_formats (resolve_formats formats) f l m
                     (dashed_formats (resolve_formats formats) f l
                        (underscored_formats (resolve_formats formats) f l m
                           (dotted_formats (resolve_formats formats) f l m
                              (standard_formats (resolve_formats formats)
                                 f l m ∅)))))) as Hin.
  { intros v. unfold variants. rewrite elem_of_generate_variants.
    fold f l m. intuition. }
  assert (∀ c s, Chars.is_lower_alnum c = false →
            Str.count c (strip_non_alnum s) = 0%nat) as Hz.
  { intros c s Hc. eapply count_forallb_0; [exact Hc | apply forallb_filter]. }
  split; [|split; [|split; [|split]]].
  - intros Hdot. unfold enabled in Hdot.
    rewrite !Hin, !elem_of_reversed_formats, !elem_of_initial_formats,
      !elem_of_dashed_formats, !elem_of_underscored_formats,
      !elem_of_dotted_formats.
    split; do 4 left; right; (split; [exact Hdot|]); (split; [exact Hl|]);
      do 4 right; (split; [exact Hm|]); [by left | by right].
  - intros Hund. unfold enabled in Hund.
    rewrite Hin, elem_of_reversed_formats, elem_of_initial_formats,
      elem_of_dashed_formats, elem_of_underscored_formats.
    do 3 left; right. split; [exact Hund|]. split; [exact Hl|].
    do 4 right. by split.
  - intros Hv. apply separators_in_variants in Hv as [_ [Hc|Heq]].
    + rewrite !count_app in Hc. simpl in Hc. lia.
    + fold f l m in Heq.
      apply (app_sep_inj "_"%char) in Heq as [Hf0 Heq].
      * apply (app_sep_inj "_"%char) in Heq as [Hm0 _]; [done|..].
        -- pose proof (count_index0_le "_"%char m) as Hle.
           unfold m in Hle at 2. rewrite Hz in Hle by done. lia.
        -- by apply Hz.
      * pose proof (count_index0_le "_"%char f) as Hle.
        unfold f in Hle at 2. rewrite Hz in Hle by done. lia.
      * by apply Hz.
  - intros Hv. apply separators_in_variants in Hv as [Hc _].
    rewrite !count_app in Hc. simpl in Hc. lia.
  - intros Hv. apply separators_in_variants in Hv as [Hc _].
    rewrite !count_app in Hc. simpl in Hc. lia.
Qed.

Lemma middle_combinations_witness :
  "john.michael.doe" ∈ generate_variants "john" "doe" "michael" None
  ∧ "j.m.doe" ∈ generate_variants "john" "doe" "michael" None.
Proof.
  refine (proj1 (middle_combinations "john" "doe" "michael" None _ _ _) _);
    [done | done | done | vm_compute; reflexivity].
Defined.

(** ** The suffix pass *)

Lemma items_not_truthy {A} (o : option (list A)) :
  list_truthy o = false → items o = [].
Proof. destruct o as [[|]|]; simpl; congruence. Qed.

(** One of the three guarded double loops of [add_suffixes]. *)
Lemma elem_of_suffix_loop {A} (o : option (list A)) (usernames : gset string)
    (inner : string → A → gset string → gset string)
    (added : string → A → string → Prop) (s : gset string) v :
  (∀ u x s' w, w ∈ inner u x s' ↔ w ∈ s' ∨ added u x w) →
  v ∈ (if list_truthy o
       then for_each (elements usernames)
              (λ username, for_each (items o) (inner username)) s
       else s) ↔
    v ∈ s ∨ ∃ u x, u ∈ usernames ∧ x ∈ items o ∧ added u x v.
Proof.
  intros Hinner. destruct (list_truthy o) eqn:Ho.
  - rewrite (elem_of_for_each _ _
               (λ u w, ∃ x, x ∈ items o ∧ added u x w)).
    + split; (intros [?|(u & Hu)]; [by left|right]).
      * destruct Hu as (Hu%elem_of_elements & x & ? & ?). by exists u, x.
      * destruct Hu as (x & ? & ? & ?). exists u.
        split; [by apply elem_of_elements|by exists x].
    + intros u s' w. by apply elem_of_for_each.
  - rewrite (items_not_truthy _ Ho). split; [by left|].
    intros [?|(u & x & _ & Hx & _)]; [done|]. by apply elem_of_nil in Hx.
Qed.

(** What [add_suffixes] returns: the usernames it was given and, for
    each of them, the forms built with each number, year and word. *)
Lemma elem_of_add_suffixes usernames numbers years common_words v :
  v ∈ add_suffixes usernames numbers years common_words ↔
    v ∈ usernames
    ∨ (∃ u n, u ∈ usernames ∧ n ∈ items numbers ∧
         (v = u +:+ py_str n ∨ v = u +:+ "." +:+ py_str n
          ∨ v = u +:+ "_" +:+ py_str n ∨ v = u +:+ "-" +:+ py_str n))
    ∨ (∃ u y, u ∈ usernames ∧ y ∈ items years ∧
         (v = u +:+ py_str y ∨ v = u +:+ Str.slice_from2 (py_str y)))
    ∨ (∃ u w, u ∈ usernames ∧ w ∈ items common_words ∧
         (v = u +:+ w ∨ v = u +:+ "." +:+ w
          ∨ v = u +:+ "_" +:+ w ∨ v = u +:+ "-" +:+ w)).
Proof.
  unfold add_suffixes.
  rewrite (elem_of_suffix_loop common_words usernames _
             (λ u w v, v = u +:+ w ∨ v = u +:+ "." +:+ w
                       ∨ v = u +:+ "_" +:+ w ∨ v = u +:+ "-" +:+ w))
    by (intros; rewrite !elem_of_add; tauto).
  rewrite (elem_of_suffix_loop years usernames _
             (λ u y v, v = u +:+ py_str y
                       ∨ v = u +:+ Str.slice_from2 (py_str y)))
    by (intros; rewrite !elem_of_add; tauto).
  rewrite (elem_of_suffix_loop numbers usernames _
             (λ u n v, v = u +:+ py_str n ∨ v = u +:+ "." +:+ py_str n
                       ∨ v = u +:+ "_" +:+ py_str n
                       ∨ v = u +:+ "-" +:+ py_str n))
    by (intros; rewrite !elem_of_add; tauto).
  rewrite elem_of_union. tauto.
Qed.

(** For a year of four digits the slice [str(year)[2:]] is the last two
    digits. *)
Lemma year_slice_four_digits y :
  1000 ≤ y ≤ 9999 →
  Str.slice_from2 (py_str y) = Str.last2 (py_str y).
Proof.
  intros Hy.
  assert (forallb (λ y, String.eqb (Str.slice_from2 (py_str y))
                                   (Str.last2 (py_str y)))
            (seqZ 1000 9000) = true) as Hall by (vm_compute; reflexivity).
  rewrite forallb_forall in Hall.
  apply String.eqb_eq, Hall, list_elem_of_In, elem_of_seqZ. lia.
Qed.

(** C3, on the code. The year loop appends [str(year)] and
    [str(year)[2:]], the decimal string without its first two
    characters.  For a year of five digits that is three characters, for
    one of three digits a single one: the username followed by the last
    two characters of the year is not produced. *)
Theorem year_suffix_not_last_two :
  add_suffixes {["john"]} None (Some [12345]) None
    = list_to_set ["john"; "john12345"; "john345"]
  ∧ "john" +:+ Str.last2 (py_str 12345) = "john45"
  ∧ ("john" +:+ Str.last2 (py_str 12345)
       ∉ add_suffixes {["john"]} None (Some [12345]) None)
  ∧ add_suffixes {["john"]} None (Some [999]) None
      = list_to_set ["john"; "john999"; "john9"]
  ∧ "john" +:+ Str.last2 (py_str 999) = "john99".
Proof. repeat split; by vm_compute. Qed.

(** ** The l33t pass *)

(** What [add_l33t_speak] returns: for a username, a table letter that
    occurs in it and one of the replacements of that letter, the
    username with the first occurrence replaced. *)
Lemma elem_of_add_l33t_speak (usernames : gset string) v :
  v ∈ add_l33t_speak usernames ↔
    ∃ u char replacements replacement,
      u ∈ usernames ∧ (char, replacements) ∈ l33t_map
      ∧ Str.mem char u = true ∧ replacement ∈ replacements
      ∧ v = replace_first char replacement u.
Proof.
  unfold add_l33t_speak.
  rewrite (elem_of_for_each _ _ (λ u w,
             ∃ char replacements replacement,
               (char, replacements) ∈ l33t_map ∧ Str.mem char u = true
               ∧ replacement ∈ replacements
               ∧ w = replace_first char replacement u)).
  - split.
    + intros [H|(u & Hu%elem_of_elements & c & rs & r & ?)];
        [by apply not_elem_of_empty in H|].
      by exists u, c, rs, r.
    + intros (u & c & rs & r & Hu & ?). right. exists u.
      split; [by apply elem_of_elements|]. by exists c, rs, r.
  - intros u s' w.
    rewrite (elem_of_for_each _ _ (λ (entry : ascii * list string) w,
               Str.mem entry.1 u = true
               ∧ ∃ replacement, replacement ∈ entry.2
                   ∧ w = replace_first entry.1 replacement u)).
    + split; (intros [?|H]; [by left|right]).
      * destruct H as ([c rs] & ? & ? & r & ? & ?). by exists c, rs, r.
      * destruct H as (c & rs & r & ? & ? & ? & ?). exists (c, rs).
        split; [done|]. split; [done|]. by exists r.
    + intros [c rs] s'' w'. simpl. destruct (Str.mem c u).
      * rewrite (elem_of_for_each _ _ (λ r w, w = replace_first c r u)).
        -- split; (intros [?|H]; [by left|right]).
           ++ destruct H as (r & ? & ?). split; [done|]. by exists r.
           ++ destruct H as (_ & r & ? & ?). by exists r.
        -- intros r s3 w3. by rewrite elem_of_add.
      * split; [by left|]. intros [?|[? _]]; done.
Qed.

(** Replacing the first occurrence of a character that occurs: the
    string is cut at that occurrence and only it changes. *)
Lemma replace_first_occurrence char replacement u :
  Str.mem char u = true →
  ∃ before after,
    u = before +:+ String char after
    ∧ Str.mem char before = false
    ∧ replace_first char replacement u = before +:+ replacement +:+ after.
Proof.
  induction u as [|c u IH]; simpl; [done|].
  case_bool_decide as Hc; simpl.
  - subst c. intros _. exists "", u. rewrite bool_decide_true by done. done.
  - intros (before & after & -> & Hbefore & ->)%IH.
    exists (String c before), after. simpl.
    rewrite (bool_decide_false (c = char)) by congruence.
    rewrite bool_decide_false by congruence. done.
Qed.

(** Every replacement of the table is one character, other than the
    letter it stands for. *)
Lemma l33t_map_single_characters char replacements replacement :
  (char, replacements) ∈ l33t_map → replacement ∈ replacements →
  ∃ d, replacement = String d "" ∧ d ≠ char.
Proof.
  unfold l33t_map. intros Hentry Hr.
  repeat (apply elem_of_cons in Hentry as [[= -> ->]|Hentry];
          [ repeat (apply elem_of_cons in Hr as [->|Hr];
                    [eexists; split; [reflexivity|done]|]);
            by apply elem_of_nil in Hr |]).
  by apply elem_of_nil in Hentry.
Qed.

(** C8. Every string that the l33t pass produces comes from a username
    of the base set by replacing the first occurrence of one table
    letter by one replacement character of that letter; the two strings
    have the same length and differ at that position only. *)
Theorem add_l33t_speak_first_occurrence (usernames : gset string) v :
  v ∈ add_l33t_speak usernames →
  ∃ u before char after replacements d,
    u ∈ usernames
    ∧ (char, replacements) ∈ l33t_map ∧ String d "" ∈ replacements
    ∧ d ≠ char
    ∧ u = before +:+ String char after
    ∧ Str.mem char before = false
    ∧ v = before +:+ String d after
    ∧ String.length v = String.length u.
Proof.
  intros (u & char & rs & r & Hu & Hentry & Hmem & Hr & ->)
    %elem_of_add_l33t_speak.
  destruct (l33t_map_single_characters _ _ _ Hentry Hr) as (d & -> & Hd).
  destruct (replace_first_occurrence char (String d "") u Hmem)
    as (before & after & Hcut & Hbefore & ->).
  exists u, before, char, after, rs, d.
  split_and!; [done..|].
  rewrite Hcut, !length_app. reflexivity.
Qed.

Lemma add_l33t_speak_first_occurrence_witness :
  ∃ u before char after replacements d,
    u ∈ ({["alice"]} : gset string)
    ∧ (char, replacements) ∈ l33t_map ∧ String d "" ∈ replacements
    ∧ d ≠ char
    ∧ u = before +:+ String char after
    ∧ Str.mem char before = false
    ∧ "al1ce" = before +:+ String d after
    ∧ String.length "al1ce" = String.length u.
Proof.
  apply (add_l33t_speak_first_occurrence {["alice"]} "al1ce").
  vm_compute. reflexivity.
Defined.

(** ** The order of the passes *)

(** [process_name], step by step: nothing for a name without tokens;
    otherwise one call of the generator, then the parsing of the suffix
    specifications, then the three passes. *)
Lemma process_name_steps name args :
  process_name name args =
    if usable name then
      let '(first, middle, last) :=
        name_parts (Parse.split_ws (clean name)) in
      ([Generate first last middle],
       result_bind (suffix_specs args) (λ '(numbers, years, words),
         let base :=
           generate_variants first last middle (Args.format args) in
         let s1 := add_suffixes base numbers years words in
         let s2 := if Args.leet args then leet_pass s1 else s1 in
         let s3 :=
           if negb (bool_decide (Args.caps args = "none"))
           then caps_pass (Args.caps args) s2 else s2 in
         Return s3))
    else ([], Return ∅).
Proof.
  unfold process_name, usable.
  destruct (Parse.split_ws (clean name)) as [|p0 rest]; [reflexivity|].
  assert (add_suffixes_none : ∀ s : gset string,
            add_suffixes s None None None = s).
  { intros s. unfold add_suffixes. simpl. apply union_idemp_L. }
  set (fml := name_parts (p0 :: rest)).
  assert (match rest with
          | [] => (p0, "", "")
          | [p1] => (p0, "", p1)
          | p1 :: _ :: _ => (p0, p1, List.last (p0 :: rest) "")
          end = fml) as ->.
  { unfold fml. simpl. destruct rest as [|p1 [|p2 rest]]; reflexivity. }
  destruct fml as [[first middle] last].
  unfold call_generate_variants, suffix_specs, parse_if_given, parse_opt.
  destruct (opt_truthy (Args.numbers args)) eqn:Hn;
    destruct (opt_truthy (Args.years args)) eqn:Hy;
    destruct (opt_truthy (Args.words args)) eqn:Hw; simpl;
    try destruct (parse_numbers _) as [ns|[]]; simpl;
    try destruct (parse_years _) as [ys|[]]; simpl;
    rewrite ?add_suffixes_none; reflexivity.
Qed.

(** C4, as stated, fails: no two of the three passes commute.  A
    capital letter is not a table letter, so the l33t pass finds less
    after the capitalisation; a suffix word brings table letters and
    lower-case letters of its own, so the l33t and the capitalisation
    pass find less before it. *)
Lemma passes_do_not_commute :
  leet_pass (caps_pass "upper" {["ab"]})
    ≠ caps_pass "upper" (leet_pass {["ab"]})
  ∧ leet_pass (suffix_pass None None (Some ["e"]) {["b"]})
      ≠ suffix_pass None None (Some ["e"]) (leet_pass {["b"]})
  ∧ caps_pass "upper" (suffix_pass None None (Some ["e"]) {["b"]})
      ≠ suffix_pass None None (Some ["e"]) (caps_pass "upper" {["b"]}).
Proof.
  split_and!; intros Heq.
  - assert ("4B" ∈ caps_pass "upper" (leet_pass {["ab"]})) as Hin
      by (vm_compute; reflexivity).
    rewrite <- Heq in Hin. vm_compute in Hin. discriminate.
  - assert ("b3" ∈ leet_pass (suffix_pass None None (Some ["e"]) {["b"]}))
      as Hin by (vm_compute; reflexivity).
    rewrite Heq in Hin. vm_compute in Hin. discriminate.
  - assert ("BE" ∈ caps_pass "upper"
                      (suffix_pass None None (Some ["e"]) {["b"]})) as Hin
      by (vm_compute; reflexivity).
    rewrite Heq in Hin. vm_compute in Hin. discriminate.
Qed.

(** Each pass keeps the set it is given. *)
Lemma suffix_pass_extensive numbers years words (s : gset string) :
  s ⊆ suffix_pass numbers years words s.
Proof. intros v Hv. apply elem_of_add_suffixes. by left. Qed.

Lemma leet_pass_extensive (s : gset string) : s ⊆ leet_pass s.
Proof. unfold leet_pass. set_solver. Qed.

Lemma caps_pass_extensive caps_type (s : gset string) :
  s ⊆ caps_pass caps_type s.
Proof. unfold caps_pass. set_solver. Qed.

(** C4, amended. The passes run in one order: suffixes, then l33t
    speak, then capitalisation, each on the whole set accumulated so far
    and keeping it.  For a usable name whose suffix specifications
    parse, the result is
    base ∪ suffix(base) ∪ leet(base ∪ suffix(base))
         ∪ caps(base ∪ suffix(base) ∪ leet(...)),
    a disabled pass contributing nothing. *)
Theorem passes_in_fixed_order name args numbers years words :
  usable name = true →
  suffix_specs args = Return (numbers, years, words) →
  let '(first, middle, last) := name_parts (Parse.split_ws (clean name)) in
  let base := generate_variants first last middle (Args.format args) in
  let suffixed := base ∪ suffix_pass numbers years words base in
  let leeted := suffixed ∪ leet_if (Args.leet args) suffixed in
  let capped := leeted ∪ caps_if (Args.caps args) leeted in
  process_name name args = ([Generate first last middle], Return capped)
  ∧ base ⊆ capped.
Proof.
  intros Husable Hspecs. rewrite process_name_steps, Husable, Hspecs.
  destruct (name_parts _) as [[first middle] last]. simpl.
  set (base := generate_variants _ _ _ _).
  assert (base ∪ suffix_pass numbers years words base
          = add_suffixes base numbers years words) as ->.
  { apply subseteq_union_1_L, suffix_pass_extensive. }
  set (s1 := add_suffixes base numbers years words).
  assert (base ⊆ s1) as Hbase by apply suffix_pass_extensive.
  unfold leet_if, caps_if, leet_pass, caps_pass.
  destruct (Args.leet args); case_bool_decide; simpl;
    rewrite ?(right_id_L ∅ (∪)); (split; [reflexivity|set_solver]).
Qed.

Lemma passes_in_fixed_order_witness :
  ∃ usernames,
    process_name "John Doe" args_passes
      = ([Generate "john" "doe" ""], Return usernames)
    ∧ "john" ∈ usernames ∧ "j0hn1" ∈ usernames ∧ "J0HN1" ∈ usernames.
Proof.
  pose proof (passes_in_fixed_order "John Doe" args_passes (Some [1; 2])
                None None eq_refl eq_refl) as Hrun.
  change (name_parts _) with ("john", "", "doe") in Hrun.
  cbv beta iota zeta in Hrun. destruct Hrun as [Hrun _].
  eexists. split; [exact Hrun|].
  split_and!; vm_compute; reflexivity.
Defined.

(** ** Parsing the specifications *)

Section ParseFacts.
Implicit Types (s t : string) (c : ascii).

Lemma mem_app c s t : Str.mem c (s +:+ t) = Str.mem c s || Str.mem c t.
Proof.
  induction s as [|d s IH]; simpl; [reflexivity|].
  rewrite IH. apply orb_assoc.
Qed.

Lemma split_on_absent c s : Str.mem c s = false → Parse.split_on c s = [s].
Proof.
  induction s as [|d s IH]; simpl; [reflexivity|].
  intros [Hd Hs]%orb_false_iff. apply bool_decide_eq_false in Hd.
  rewrite bool_decide_false by congruence. rewrite (IH Hs). reflexivity.
Qed.

Lemma split_on_first c s t :
  Str.mem c s = false →
  Parse.split_on c (s +:+ String c t) = s :: Parse.split_on c t.
Proof.
  induction s as [|d s IH]; simpl.
  - intros _. rewrite bool_decide_true by done. reflexivity.
  - intros [Hd Hs]%orb_false_iff. apply bool_decide_eq_false in Hd.
    rewrite bool_decide_false by congruence. rewrite (IH Hs). reflexivity.
Qed.

(** A specification [A-B] with no other dash splits into [A] and [B]. *)
Lemma split_range s t :
  Str.mem "-" s = false → Str.mem "-" t = false →
  Parse.split_on "-" (s +:+ "-" +:+ t) = [s; t].
Proof.
  intros Hs Ht. change ("-" +:+ t) with (String "-" t).
  rewrite split_on_first by done. rewrite split_on_absent by done.
  reflexivity.
Qed.


End ParseFacts.




(** A non-empty string of decimal digits is an integer for [int] and
    holds no dash: the ranges of C9 are among those of the theorem. *)
Section DecimalNumerals.
Implicit Types (s t : string) (c : ascii).

Lemma rev_app_rev_app s t u :
  String.rev_app (String.rev_app s t) u = String.rev_app t (s +:+ u).
Proof.
  revert t u. induction s as [|c s IH]; intros t u; simpl; [reflexivity|].
  rewrite IH. reflexivity.
Qed.

Lemma app_empty_r s : s +:+ "" = s.
Proof.
  induction s as [|c s IH]; [reflexivity|].
  change (String c (s +:+ "") = String c s). by f_equal.
Qed.

Lemma rev_rev s : String.rev (String.rev s) = s.
Proof.
  unfold String.rev. rewrite rev_app_rev_app. simpl. apply app_empty_r.
Qed.

Lemma forallb_rev_app p s t :
  Str.forallb p (String.rev_app s t) = Str.forallb p s && Str.forallb p t.
Proof.
  revert t. induction s as [|c s IH]; intros t; simpl; [reflexivity|].
  rewrite IH. simpl. destruct (p c), (Str.forallb p s); reflexivity.
Qed.

Lemma digit_not_space c :
  Chars.is_digit c = true →
  Chars.is_space c = false ∧ Chars.is_int_space c = false.
Proof.
  unfold Chars.is_digit, Chars.is_space, Chars.is_int_space, Chars.in_range.
  intros [H1 H2]%andb_true_iff. apply N.leb_le in H1, H2.
  split; apply orb_false_iff; split.
  - apply andb_false_iff; right; apply N.leb_gt; lia.
  - apply andb_false_iff; right; apply N.leb_gt; lia.
  - apply andb_false_iff; right; apply N.leb_gt; lia.
  - apply bool_decide_eq_false. intros ->. vm_compute in H1. done.
Qed.

(** Stripping leaves a string alone when no character of it is one to
    strip. *)
Lemma strip_of_none space s :
  Str.forallb (λ c, negb (space c)) s = true → Parse.strip_of space s = s.
Proof.
  intros Hs.
  assert (∀ t, Str.forallb (λ c, negb (space c)) t = true →
               Parse.lstrip_of space t = t) as Hl.
  { intros [|c t]; simpl; [reflexivity|].
    intros [Hc _]%andb_true_iff. by destruct (space c). }
  unfold Parse.strip_of, Parse.rstrip_of. rewrite (Hl s Hs), Hl.
  - apply rev_rev.
  - unfold String.rev. rewrite forallb_rev_app, Hs. reflexivity.
Qed.

Lemma int_strip_digits s :
  Str.forallb Chars.is_digit s = true →
  Parse.strip_of Chars.is_int_space s = s.
Proof.
  intros Hs. apply strip_of_none. revert Hs. apply forallb_impl.
  intros c Hc. by rewrite (proj2 (digit_not_space c Hc)).
Qed.

Lemma digits_of_numeral s st acc :
  Str.forallb Chars.is_digit s = true → s ≠ "" →
  ∃ n, Parse.digits st acc s = Return n.
Proof.
  revert st acc. induction s as [|c s IH]; intros st acc; [done|].
  simpl. intros [Hc Hs]%andb_true_iff _. rewrite Hc.
  destruct s as [|d s]; [by eexists|]. by apply IH.
Qed.

Lemma int_of_numeral s :
  Str.forallb Chars.is_digit s = true → s ≠ "" →
  (∃ n, Parse.int s = Return n) ∧ Str.mem "-" s = false.
Proof.
  intros Hs Hne. split.
  - unfold Parse.int. rewrite (int_strip_digits s Hs).
    destruct (digits_of_numeral s Parse.AtStart 0 Hs Hne) as [n Hn].
    exists n. destruct s as [|c s]; [done|].
    simpl in Hs. apply andb_true_iff in Hs as [Hc _].
    destruct c as [[] [] [] [] [] [] [] []];
      first [ by vm_compute in Hc | exact Hn ].
  - clear Hne. induction s as [|c s IH]; simpl; [reflexivity|].
    simpl in Hs. apply andb_true_iff in Hs as [Hc Hs].
    rewrite (IH Hs), orb_false_r. apply bool_decide_eq_false.
    intros <-. by vm_compute in Hc.
Qed.

End DecimalNumerals.

(** ** Aggregation *)

Lemma sorted_spec (s : gset string) :
  StronglySorted String.le (sorted s) ∧ NoDup (sorted s)
  ∧ ∀ u, u ∈ sorted s ↔ u ∈ s.
Proof.
  unfold sorted.
  pose proof (merge_sort_Permutation String.le (elements s)) as Hperm.
  split_and!.
  - apply StronglySorted_merge_sort; apply _.
  - rewrite Hperm. apply NoDup_elements.
  - intros u. rewrite Hperm. apply elem_of_elements.
Qed.

Lemma elem_of_union_loop (per_name : list (gset string)) (s : gset string) u :
  u ∈ for_each per_name (λ usernames all_usernames,
         all_usernames ∪ usernames) s ↔
    u ∈ s ∨ ∃ usernames, usernames ∈ per_name ∧ u ∈ usernames.
Proof.
  apply (elem_of_for_each per_name _ (λ usernames w, w ∈ usernames)).
  intros x s' w. apply elem_of_union.
Qed.

(** The aggregation on its own: whether sorting is requested or not,
    its output is sorted in increasing order of the characters' codes,
    holds no string twice, and holds exactly the strings of the
    per-name sets. *)
Theorem aggregate_sorted_union (sort : bool) (per_name : list (gset string)) :
  StronglySorted String.le (aggregate sort per_name)
  ∧ NoDup (aggregate sort per_name)
  ∧ (∀ u, u ∈ aggregate sort per_name ↔
          ∃ usernames, usernames ∈ per_name ∧ u ∈ usernames)
  ∧ aggregate sort per_name = aggregate (negb sort) per_name.
Proof.
  assert (∀ b, aggregate b per_name
               = sorted (for_each per_name (λ usernames all_usernames,
                           all_usernames ∪ usernames) ∅)) as Hagg
    by (by intros []).
  rewrite !Hagg.
  destruct (sorted_spec (for_each per_name (λ usernames all_usernames,
                           all_usernames ∪ usernames) ∅))
    as (Hsorted & Hnodup & Hin).
  split_and!; [done | done | | done].
  intros u. rewrite Hin, elem_of_union_loop. split.
  - intros [H|H]; [by apply not_elem_of_empty in H|done].
  - by right.
Qed.

(** The loop of [main] builds the union of what [process_name] returns
    for each name, and stops at the first name that raises. *)
Lemma collect_returns names args (acc : gset string) t all_usernames :
  collect names args acc = (t, Return all_usernames) →
  ∃ per_name,
    Forall2 (λ name usernames, (process_name name args).2 = Return usernames)
            names per_name
    ∧ all_usernames
      = for_each per_name (λ usernames all_usernames,
          all_usernames ∪ usernames) acc.
Proof.
  revert acc t. induction names as [|name names IH]; intros acc t; simpl.
  - intros [= _ <-]. exists []. split; [constructor|reflexivity].
  - unfold bind.
    destruct (process_name name args) as [t1 [usernames|e]] eqn:Hp; simpl;
      [|discriminate].
    destruct (collect names args (acc ∪ usernames)) as [t2 r] eqn:Hc.
    intros [= _ ->]. apply IH in Hc as (per_name & Hall & ->).
    exists (usernames :: per_name). split; [|reflexivity].
    constructor; [by rewrite Hp|exact Hall].
Qed.

(** What [main] outputs is the aggregation of the per-name sets. *)
Lemma main_output args e t lines :
  main args e = (t, Output lines) →
  ∃ names per_name,
    read_names args e = inr names
    ∧ Forall2 (λ name usernames,
                 (process_name name args).2 = Return usernames)
              names per_name
    ∧ lines = aggregate (Args.sort args) per_name.
Proof.
  unfold main. destruct (read_names args e) as [msg|names]; [done|].
  destruct names as [|name names]; [done|].
  destruct (collect _ _ _) as [t' [all_usernames|ex]] eqn:Hc; [|done].
  intros [= _ <-]. apply collect_returns in Hc as (per_name & Hall & ->).
  exists (name :: names), per_name. split_and!; [done..|].
  unfold aggregate. by destruct (Args.sort args).
Qed.

(** The [--sort] flag has no part in reading the names nor in
    processing them. *)
Lemma read_names_with_sort b args e :
  read_names (with_sort b args) e = read_names args e.
Proof. by destruct args. Qed.

Lemma process_name_with_sort b name args :
  process_name name (with_sort b args) = process_name name args.
Proof. by destruct args. Qed.

Lemma collect_with_sort b names args (acc : gset string) :
  collect names (with_sort b args) acc = collect names args acc.
Proof.
  revert acc. induction names as [|name names IH]; intros acc; [reflexivity|].
  simpl. rewrite process_name_with_sort. unfold bind.
  destruct (process_name name args) as [t1 [usernames|ex]]; [|reflexivity].
  by rewrite IH.
Qed.

(** A run that reaches its output has read a non-empty list of names,
    its loop has returned, and the output is the sorted set. *)
Lemma main_output_inv args e t lines :
  main args e = (t, Output lines) →
  ∃ names all_usernames,
    names ≠ [] ∧ read_names args e = inr names
    ∧ collect names args ∅ = (t, Return all_usernames)
    ∧ lines = sorted all_usernames.
Proof.
  unfold main. destruct (read_names args e) as [msg|names]; [done|].
  destruct names as [|name names]; [done|].
  destruct (collect _ _ _) as [t' [all_usernames|ex]] eqn:Hc; [|done].
  intros [= <- <-]. exists (name :: names), all_usernames.
  split_and!; [done..|]. by destruct (Args.sort args).
Qed.

(** C7. Whenever a run of [main] reaches its output, the sequence it
    hands over is sorted in increasing order of the characters' codes,
    holds no string twice, and holds exactly the usernames of the sets
    that [process_name] returned for the names; and the run gives the
    same sequence whether [--sort] is requested or not. *)
Theorem main_output_sorted_union args e t lines :
  main args e = (t, Output lines) →
  StronglySorted String.le lines
  ∧ NoDup lines
  ∧ (∃ names,
       read_names args e = inr names
       ∧ ∀ u, u ∈ lines ↔
              ∃ name usernames,
                name ∈ names
                ∧ (process_name name args).2 = Return usernames
                ∧ u ∈ usernames)
  ∧ ∀ b, main (with_sort b args) e = (t, Output lines).
Proof.
  intros (names & all_usernames & Hne & Hnames & Hc & ->)%main_output_inv.
  destruct (sorted_spec all_usernames) as (Hsorted & Hnodup & Hin).
  split_and!; [exact Hsorted | exact Hnodup | |].
  - exists names. split; [exact Hnames|].
    apply collect_returns in Hc as (per_name & Hall & ->).
    intros u. rewrite Hin, elem_of_union_loop. split.
    + intros [Hu|(usernames & Hus & Hu)];
        [by apply not_elem_of_empty in Hu|].
      apply list_elem_of_lookup in Hus as [i Hi].
      destruct (Forall2_lookup_r _ _ _ _ _ Hall Hi) as (n & Hn & Hrun).
      exists n, usernames. split_and!; [|done..].
      apply list_elem_of_lookup. by exists i.
    + intros (n & usernames & Hn & Hrun & Hu). right.
      apply list_elem_of_lookup in Hn as [i Hi].
      destruct (Forall2_lookup_l _ _ _ _ _ Hall Hi) as (us & Hus & Hrun').
      rewrite Hrun in Hrun'. injection Hrun' as <-.
      exists usernames. split; [|done].
      apply list_elem_of_lookup. by exists i.
  - intros b. unfold main.
    rewrite read_names_with_sort, Hnames, collect_with_sort.
    destruct names as [|name names]; [done|]. rewrite Hc.
    by destruct (Args.sort (with_sort b args)).
Qed.

Lemma main_output_sorted_union_witness :
  StronglySorted String.le
    ["doe.j"; "doe.john"; "j.d"; "j.doe"; "john.d"; "john.doe"]
  ∧ NoDup ["doe.j"; "doe.john"; "j.d"; "j.doe"; "john.d"; "john.doe"].
Proof.
  pose proof (main_output_sorted_union
                (Args.Make (Some ["John Doe"; "J Doe"; "john doe"]) None
                           (Some ["dotted"]) None None None
                           false "none" true)
                no_env
                [Generate "john" "doe" ""; Generate "j" "doe" "";
                 Generate "john" "doe" ""]
                ["doe.j"; "doe.john"; "j.d"; "j.doe"; "john.d"; "john.doe"]
                eq_refl) as (Hsorted & Hnodup & _).
  split; [exact Hsorted|exact Hnodup].
Defined.

(** ** Malformed specifications *)

(** A token of a comma list that [int] refuses makes the parser raise. *)
Lemma result_map_list_raises {A B} (f : A → result B) (xs : list A) x :
  x ∈ xs → f x = Raise ValueError →
  result_map_list f xs = Raise ValueError.
Proof.
  intros Hx Hf. induction xs as [|y xs IH]; [by apply elem_of_nil in Hx|].
  simpl. apply elem_of_cons in Hx as [<-|Hx].
  - by rewrite Hf.
  - destruct (f y) as [b|[]]; simpl; [|reflexivity].
    by rewrite (IH Hx).
Qed.

Lemma parse_numbers_bad_list_token s token :
  Str.mem "-" s = false → Str.mem "," s = true →
  token ∈ Parse.split_on "," s →
  Parse.int (Parse.strip token) = Raise ValueError →
  parse_numbers s = Raise ValueError.
Proof.
  intros Hdash Hcomma Htoken Hint. unfold parse_numbers.
  destruct s as [|c s]; [done|]. cbn [Str.truthy negb].
  rewrite Hdash, Hcomma.
  by apply (result_map_list_raises _ _ token).
Qed.

Lemma parse_numbers_bad_range_token sa sb :
  Str.mem "-" sa = false → Str.mem "-" sb = false →
  Parse.int sa = Raise ValueError ∨ Parse.int sb = Raise ValueError →
  parse_numbers (sa +:+ "-" +:+ sb) = Raise ValueError.
Proof.
  intros Hsa Hsb Hbad. unfold parse_numbers.
  assert (Str.truthy (sa +:+ "-" +:+ sb) = true) as ->
    by (rewrite !truthy_app; simpl; apply orb_true_r).
  assert (Str.mem "-" (sa +:+ "-" +:+ sb) = true) as ->
    by (rewrite !mem_app; simpl; apply orb_true_r).
  rewrite split_range by done. simpl.
  destruct Hbad as [->| ->]; [reflexivity|].
  by destruct (Parse.int sa) as [a|[]].
Qed.

(** A malformed configuration makes the parsing step of [process_name]
    raise. *)
Lemma malformed_suffix_specs args :
  malformed args = true → suffix_specs args = Raise ValueError.
Proof.
  unfold malformed, rejected, suffix_specs, parse_opt.
  destruct (opt_truthy (Args.numbers args)); simpl.
  - destruct (parse_numbers _) as [ns|[]]; simpl; [|reflexivity].
    destruct (opt_truthy (Args.years args)); simpl; [|discriminate].
    by destruct (parse_years _) as [ys|[]].
  - destruct (opt_truthy (Args.years args)); simpl; [|discriminate].
    by destruct (parse_years _) as [ys|[]].
Qed.

(** With a malformed configuration the loop of [main] runs up to the
    first usable name: it generates the base variants of that name and
    then raises; names without tokens before it are passed over. *)
Lemma collect_malformed names args (acc : gset string) :
  suffix_specs args = Raise ValueError →
  collect names args acc =
    match List.find usable names with
    | Some name =>
        let '(first, middle, last) :=
          name_parts (Parse.split_ws (clean name)) in
        ([Generate first last middle], Raise ValueError)
    | None => ([], Return acc)
    end.
Proof.
  intros Hspecs. revert acc.
  induction names as [|name names IH]; intros acc; [reflexivity|].
  simpl. rewrite process_name_steps, Hspecs.
  destruct (usable name).
  - by destruct (name_parts _) as [[first middle] last].
  - unfold bind. rewrite (right_id_L ∅ (∪)), IH.
    destruct (List.find usable names); [|reflexivity].
    by destruct (name_parts _) as [[first middle] last].
Qed.

Lemma sorted_empty : sorted ∅ = [].
Proof. unfold sorted. by rewrite elements_empty. Qed.

(** C5, as stated, fails: the specifications are parsed inside
    [process_name], after the generator has run for that name.  A
    malformed list is rejected only once the base variants of the first
    usable name have been generated, and it is not rejected at all when
    no name has a token. *)
Lemma malformed_spec_parsed_after_generation :
  malformed (args_of_names ["john"] (Some "1,x")) = true
  ∧ main (args_of_names ["john"] (Some "1,x")) no_env
    = ([Generate "john" "" ""], Uncaught ValueError)
  ∧ malformed (args_of_names ["!!!"] (Some "1,x")) = true
  ∧ main (args_of_names ["!!!"] (Some "1,x")) no_env = ([], Output []).
Proof. split_and!; by vm_compute. Qed.

(** C5, amended. With a malformed numbers or years specification and at
    least one name to process, the run ends with an uncaught
    [ValueError] and no output when some name has a token: the error is
    raised while the first such name is processed, after the one call
    of the generator for that name and before any other.  When no name
    has a token the specification is never parsed and the run ends
    normally with an empty output. *)
Theorem malformed_spec_rejected_at_first_usable_name args e names :
  malformed args = true →
  read_names args e = inr names → names ≠ [] →
  main args e =
    match List.find usable names with
    | Some name =>
        let '(first, middle, last) :=
          name_parts (Parse.split_ws (clean name)) in
        ([Generate first last middle], Uncaught ValueError)
    | None => ([], Output [])
    end.
Proof.
  intros Hbad%malformed_suffix_specs Hnames Hne. unfold main.
  rewrite Hnames. destruct names as [|name names]; [done|].
  rewrite (collect_malformed _ _ _ Hbad).
  destruct (List.find usable (name :: names)).
  - by destruct (name_parts _) as [[first middle] last].
  - destruct (Args.sort args); by rewrite sorted_empty.
Qed.

Lemma malformed_spec_rejected_at_first_usable_name_witness :
  main (args_of_names [" "; "John Doe"; "Jane Roe"] (Some "1-x")) no_env
  = ([Generate "john" "doe" ""], Uncaught ValueError).
Proof.
  apply (malformed_spec_rejected_at_first_usable_name
           (args_of_names [" "; "John Doe"; "Jane Roe"] (Some "1-x")) no_env
           [" "; "John Doe"; "Jane Roe"]);
    [reflexivity | reflexivity | discriminate].
Defined.

(** ** Blank names *)

Lemma lstrip_spaces s :
  Str.forallb Chars.is_space s = true → Parse.lstrip_of Chars.is_space s = "".
Proof.
  induction s as [|c s IH]; simpl; [reflexivity|].
  intros [-> Hs]%andb_true_iff. exact (IH Hs).
Qed.

(** An empty or whitespace-only string strips to the empty string. *)
Lemma strip_blank s :
  Str.forallb Chars.is_space s = true → Parse.strip s = "".
Proof.
  intros Hs. unfold Parse.strip, Parse.strip_of.
  by rewrite (lstrip_spaces s Hs).
Qed.

(** A blank name has no token. *)
Lemma blank_not_usable s :
  Str.forallb Chars.is_space s = true → usable s = false.
Proof. intros Hs. unfold usable, clean. by rewrite (strip_blank s Hs). Qed.

Lemma usable_lines_blank lines :
  Forall (λ line, Str.forallb Chars.is_space line = true) lines →
  usable_lines lines = [].
Proof.
  unfold usable_lines. induction 1 as [|line lines Hline _ IH]; [reflexivity|].
  simpl. rewrite (strip_blank line Hline). exact IH.
Qed.

(** X23. Blank lines read from a file or from standard input are
    dropped before the test on the list of names: when every line is
    blank the run reports that no names were provided, and generates
    nothing. *)
Lemma blank_lines_reported args e lines :
  list_truthy (Args.names args) = false →
  (opt_truthy (Args.input args) = true
   ∧ read_file e (default "" (Args.input args)) = Some lines)
  ∨ (opt_truthy (Args.input args) = false ∧ stdin e = Some lines) →
  Forall (λ line, Str.forallb Chars.is_space line = true) lines →
  main args e = ([], Exit1 "Error: No names provided").
Proof.
  intros Hnames Hsource Hblank. unfold main, read_names. rewrite Hnames.
  destruct Hsource as [[-> ->]|[-> ->]];
    by rewrite (usable_lines_blank lines Hblank).
Qed.

(** C6, on the code. Blank names given on the command line are not
    dropped: the list of names is not empty, the test passes, each name
    yields the empty set, and the run ends normally with an empty
    output instead of reporting an input error. *)
Theorem blank_name_arguments_succeed (e : env) :
  main (args_of_names [""] None) e = ([], Output [])
  ∧ main (args_of_names ["   "; ""] None) e = ([], Output []).
Proof. split; reflexivity. Qed.

(** The same for any non-empty list of blank names on the command
    line. *)
Lemma blank_names_output_empty args e names :
  Args.names args = Some names → names ≠ [] →
  Forall (λ name, Str.forallb Chars.is_space name = true) names →
  main args e = ([], Output []).
Proof.
  intros Hnames Hne Hblank. unfold main, read_names. rewrite Hnames.
  destruct names as [|name names]; [done|]. cbn [list_truthy items default].
  assert (∀ acc : gset string,
            collect (name :: names) args acc = ([], Return acc)) as ->.
  { revert Hblank. generalize (name :: names). clear.
    induction 1 as [|n ns Hn _ IH]; intros acc; [reflexivity|].
    simpl. rewrite process_name_steps, (blank_not_usable n Hn).
    unfold bind. by rewrite (right_id_L ∅ (∪)), IH. }
  destruct (Args.sort args); by rewrite sorted_empty.
Qed.

(** ** The scenarios of the specification *)

Example generate_john_doe :
  generate_variants "john" "doe" "" (Some ["standard"; "dotted"])
  = list_to_set ["john"; "johndoe"; "doejohn"; "john.doe"; "doe.john";
                 "j.doe"; "john.d"].
Proof. by vm_compute. Qed.

Example main_john_doe :
  main (Args.Make (Some ["John Doe"]) None (Some ["standard"; "dotted"])
                  None None None false "none" false) no_env
  = ([Generate "john" "doe" ""],
     Output ["doe.john"; "doejohn"; "j.doe"; "john"; "john.d"; "john.doe";
             "johndoe"]).
Proof. by vm_compute. Qed.

Example suffixes_range_0_2 :
  parse_numbers "0-2" = Return [0; 1; 2]
  ∧ add_suffixes {["john"]} (Some [0; 1; 2]) None None
    = list_to_set ["john"; "john0"; "john.0"; "john_0"; "john-0";
                   "john1"; "john.1"; "john_1"; "john-1";
                   "john2"; "john.2"; "john_2"; "john-2"].
Proof. split; by vm_compute. Qed.

Example caps_all_john_doe :
  caps_pass "all" {["john.doe"]}
  = list_to_set ["john.doe"; "JOHN.DOE"; "John.doe"; "John.Doe"].
Proof. by vm_compute. Qed.

Example leet_alice :
  add_l33t_speak {["alice"]}
  = list_to_set ["4lice"; "@lice"; "alic3"; "al1ce"; "al!ce"; "a1ice"].
Proof. by vm_compute. Qed.

(** * Further properties *)

(** ** The variant generator, continued *)

Lemma strip_non_alnum_idemp s :
  strip_non_alnum (strip_non_alnum s) = strip_non_alnum s.
Proof. apply filter_id, forallb_filter. Qed.

(** X1. [generate_variants] sees its three arguments through the
    cleaning only: characters other than [a-z0-9] in a name part, an
    apostrophe or a hyphen among them, change nothing. *)
Theorem generate_variants_cleans_arguments first last middle formats :
  generate_variants first last middle formats
  = generate_variants (strip_non_alnum first) (strip_non_alnum last)
      (strip_non_alnum middle) formats.
Proof.
  unfold generate_variants.
  rewrite !middle_cleaned, !strip_non_alnum_idemp. reflexivity.
Qed.

(** X2. Enabling more categories never removes a variant: when every
    category enabled by one selection is enabled by the other, the first
    result is included in the second.  Order and repetition in the
    selection, and names that are no category, do not matter. *)
Theorem generate_variants_monotone first last middle formats1 formats2 :
  forallb (λ c, implb (enabled c formats1) (enabled c formats2))
          all_formats = true →
  generate_variants first last middle formats1
    ⊆ generate_variants first last middle formats2.
Proof.
  intros Hsub v.
  assert (∀ c, c ∈ all_formats →
               py_in c (resolve_formats formats1) = true →
               py_in c (resolve_formats formats2) = true) as Hmono.
  { intros c Hc H1. rewrite forallb_forall in Hsub.
    apply list_elem_of_In, Hsub in Hc. unfold enabled in Hc.
    by rewrite H1 in Hc. }
  rewrite !elem_of_generate_variants.
  rewrite !elem_of_reversed_formats, !elem_of_initial_formats,
    !elem_of_dashed_formats, !elem_of_underscored_formats,
    !elem_of_dotted_formats, !elem_of_standard_formats.
  pose proof (Hmono "standard" ltac:(by apply py_in_true)).
  pose proof (Hmono "dotted" ltac:(by apply py_in_true)).
  pose proof (Hmono "underscored" ltac:(by apply py_in_true)).
  pose proof (Hmono "dashed" ltac:(by apply py_in_true)).
  pose proof (Hmono "initial" ltac:(by apply py_in_true)).
  pose proof (Hmono "reversed" ltac:(by apply py_in_true)).
  clear Hmono Hsub. intuition.
Qed.

Lemma generate_variants_monotone_witness :
  generate_variants "john" "doe" "" (Some ["dotted"; "nonsense"; "dotted"])
    ⊆ generate_variants "john" "doe" "" (Some ["standard"; "dotted"]).
Proof.
  apply (generate_variants_monotone "john" "doe" ""
           (Some ["dotted"; "nonsense"; "dotted"])
           (Some ["standard"; "dotted"])).
  reflexivity.
Defined.

(** X3. A name without a last name yields the standard forms only: the
    cleaned first name and, with a middle name, first+middle.  The five
    other categories contribute nothing, so the result is empty when
    [standard] is not enabled. *)
Theorem generate_variants_no_last first last middle formats :
  strip_non_alnum last = "" →
  generate_variants first last middle formats
  = if enabled "standard" formats && Str.truthy (strip_non_alnum first)
    then {[ strip_non_alnum first ]}
         ∪ (if Str.truthy (strip_non_alnum middle)
            then {[ strip_non_alnum first +:+ strip_non_alnum middle ]}
            else ∅)
    else ∅.
Proof.
  intros Hl. unfold generate_variants, enabled.
  rewrite middle_cleaned, Hl.
  destruct (Str.truthy (strip_non_alnum first));
    [|by rewrite andb_false_r].
  unfold reversed_formats, initial_formats, dashed_formats,
    underscored_formats, dotted_formats, standard_formats, add.
  rewrite !andb_false_r, andb_true_r. cbn [Str.truthy negb].
  rewrite app_empty_r.
  destruct (py_in "standard" _); [|reflexivity].
  destruct (Str.truthy (strip_non_alnum middle));
    apply set_eq; intros v;
    rewrite !elem_of_union, !elem_of_singleton, !elem_of_empty; tauto.
Qed.

Lemma generate_variants_no_last_witness :
  generate_variants "cher" "" "" None = {["cher"]} ∪ ∅.
Proof.
  apply (generate_variants_no_last "cher" "" "" None). reflexivity.
Defined.

(** X4. One name yields at most 27 variants, whatever the selection:
    the blocks add 31 strings, four of the reversed block being strings
    of the standard, dotted, underscored and dashed blocks. *)
Theorem generate_variants_at_most_27 first last middle formats :
  (size (generate_variants first last middle formats) ≤ 27)%nat.
Proof.
  set (f := strip_non_alnum first). set (l := strip_non_alnum last).
  set (m := strip_non_alnum middle).
  set (f0 := Str.index0 f). set (l0 := Str.index0 l).
  set (m0 := Str.index0 m).
  pose (forms :=
    [ f; f +:+ l; l +:+ f; f +:+ m; f +:+ m +:+ l;
      f +:+ "." +:+ l; l +:+ "." +:+ f; f0 +:+ "." +:+ l;
      f +:+ "." +:+ l0; f +:+ "." +:+ m +:+ "." +:+ l;
      f0 +:+ "." +:+ m0 +:+ "." +:+ l;
      f +:+ "_" +:+ l; l +:+ "_" +:+ f; f0 +:+ "_" +:+ l;
      f +:+ "_" +:+ l0; f +:+ "_" +:+ m +:+ "_" +:+ l;
      f +:+ "-" +:+ l; l +:+ "-" +:+ f; f0 +:+ "-" +:+ l;
      f +:+ "-" +:+ l0;
      f0 +:+ l; l +:+ f0; f +:+ l0; l0 +:+ f; f0 +:+ m0 +:+ l;
      f +:+ m0 +:+ l0; l ]).
  change 27%nat with (length forms).
  apply submseteq_length, NoDup_submseteq; [apply NoDup_elements|].
  intros v Hv%elem_of_elements. unfold forms.
  variant_cases Hv; subst v; fold f l m; fold f0 l0 m0;
    rewrite !elem_of_cons; tauto.
Qed.

Example generate_variants_27 :
  size (generate_variants "john" "doe" "michael" None) = 27%nat.
Proof. by vm_compute. Qed.

(** ** The passes, continued *)

Lemma elem_of_add_caps_variations (usernames : gset string) caps_type v :
  v ∈ add_caps_variations usernames caps_type ↔
    ∃ u, u ∈ usernames ∧
      ((caps_type = "all"
        ∧ (v = upper u ∨ v = capitalize u ∨ v = title u))
       ∨ (caps_type = "first" ∧ v = capitalize u)
       ∨ (caps_type = "upper" ∧ v = upper u)).
Proof.
  unfold add_caps_variations.
  rewrite (elem_of_for_each _ _ (λ u v,
             (caps_type = "all"
              ∧ (v = upper u ∨ v = capitalize u ∨ v = title u))
             ∨ (caps_type = "first" ∧ v = capitalize u)
             ∨ (caps_type = "upper" ∧ v = upper u))).
  - rewrite elem_of_empty. setoid_rewrite elem_of_elements. tauto.
  - intros u s' w. repeat case_bool_decide; subst;
      rewrite ?elem_of_add; intuition congruence.
Qed.

Section CaseFacts.
Implicit Types (s : string) (c : ascii).

Lemma to_lower_to_upper c :
  Chars.to_lower (Chars.to_upper c) = Chars.to_lower c.
Proof. destruct c as [[] [] [] [] [] [] [] []]; reflexivity. Qed.

Lemma to_lower_idemp c : Chars.to_lower (Chars.to_lower c) = Chars.to_lower c.
Proof. destruct c as [[] [] [] [] [] [] [] []]; reflexivity. Qed.

Lemma lower_idemp s : lower (lower s) = lower s.
Proof.
  unfold lower. induction s as [|c s IH]; simpl; [reflexivity|].
  by rewrite to_lower_idemp, IH.
Qed.

Lemma lower_upper s : lower (upper s) = lower s.
Proof.
  unfold lower, upper. induction s as [|c s IH]; simpl; [reflexivity|].
  by rewrite to_lower_to_upper, IH.
Qed.

Lemma lower_capitalize s : lower (capitalize s) = lower s.
Proof.
  destruct s as [|c s]; [reflexivity|]. unfold capitalize.
  change (lower (String ?a ?t)) with (String (Chars.to_lower a) (lower t)).
  by rewrite to_lower_to_upper, lower_idemp.
Qed.

Lemma lower_title_from b s : lower (title_from b s) = lower s.
Proof.
  revert b. unfold lower.
  induction s as [|c s IH]; intros b; simpl; [reflexivity|].
  rewrite IH. by destruct b; rewrite ?to_lower_idemp, ?to_lower_to_upper.
Qed.

Lemma length_map f s : String.length (Str.map f s) = String.length s.
Proof. induction s as [|c s IH]; simpl; [reflexivity|]. by rewrite IH. Qed.

Lemma length_capitalize s : String.length (capitalize s) = String.length s.
Proof.
  destruct s as [|c s]; [reflexivity|]. simpl. unfold lower.
  by rewrite length_map.
Qed.

Lemma length_title_from b s :
  String.length (title_from b s) = String.length s.
Proof.
  revert b. induction s as [|c s IH]; intros b; simpl; [reflexivity|].
  by rewrite IH.
Qed.

End CaseFacts.

(** X5. On ASCII usernames the capitalisation pass changes the case of
    letters and nothing else: each string it returns has the length of
    a username of the base set and equals it once both are lower-cased.
    (Beyond ASCII the methods of Python may change the length, and the
    property is not claimed.) *)
Theorem add_caps_variations_case_only (usernames : gset string) caps_type v :
  (∀ u, u ∈ usernames → Str.forallb Chars.is_ascii u = true) →
  v ∈ add_caps_variations usernames caps_type →
  ∃ u, u ∈ usernames ∧ lower v = lower u
       ∧ String.length v = String.length u.
Proof.
  intros _ (u & Hu & Hv)%elem_of_add_caps_variations. exists u.
  split; [exact Hu|].
  destruct Hv as [[_ [->|[->| ->]]]|[[_ ->]|[_ ->]]];
    rewrite ?lower_upper, ?lower_capitalize; unfold title, upper;
    rewrite ?lower_title_from, ?length_map, ?length_capitalize,
      ?length_title_from; done.
Qed.

Lemma add_caps_variations_case_only_witness :
  ∃ u, u ∈ ({["john.doe"]} : gset string) ∧ lower "John.Doe" = lower u
       ∧ String.length "John.Doe" = String.length u.
Proof.
  apply (add_caps_variations_case_only {["john.doe"]} "all" "John.Doe").
  - intros u ->%elem_of_singleton. reflexivity.
  - vm_compute. reflexivity.
Defined.

(** X6. A capitalisation mode other than ['all'], ['first'] and
    ['upper'] adds nothing and raises no error. *)
Theorem add_caps_variations_other_mode (usernames : gset string) caps_type :
  caps_type ≠ "all" → caps_type ≠ "first" → caps_type ≠ "upper" →
  add_caps_variations usernames caps_type = ∅.
Proof.
  intros Hall Hfirst Hupper. apply set_eq. intros v.
  rewrite elem_of_add_caps_variations, elem_of_empty. split; [|done].
  intros (u & _ & [[? _]|[[? _]|[? _]]]); done.
Qed.

Lemma add_caps_variations_other_mode_witness :
  add_caps_variations {["john"]} "none" = ∅.
Proof.
  apply (add_caps_variations_other_mode {["john"]} "none"); discriminate.
Defined.

Lemma l33t_map_replacements_nonempty char replacements :
  (char, replacements) ∈ l33t_map → ∃ r, r ∈ replacements.
Proof.
  unfold l33t_map. intros Hentry.
  repeat (apply elem_of_cons in Hentry as [[= -> ->]|Hentry];
          [eexists; apply list_elem_of_here|]).
  by apply elem_of_nil in Hentry.
Qed.

(** X7. The l33t pass returns the empty set exactly when no username
    holds any of the eight letters of the table: such usernames
    contribute nothing, and a username with a table letter always
    contributes. *)
Theorem add_l33t_speak_empty_iff (usernames : gset string) :
  add_l33t_speak usernames = ∅ ↔
    ∀ u char replacements,
      u ∈ usernames → (char, replacements) ∈ l33t_map →
      Str.mem char u = false.
Proof.
  split.
  - intros Hempty u char rs Hu Hentry.
    destruct (Str.mem char u) eqn:Hmem; [|reflexivity].
    destruct (l33t_map_replacements_nonempty _ _ Hentry) as [r Hr].
    assert (replace_first char r u ∈ add_l33t_speak usernames) as Hin.
    { apply elem_of_add_l33t_speak. by exists u, char, rs, r. }
    rewrite Hempty in Hin. by apply not_elem_of_empty in Hin.
  - intros Hnone. apply set_eq. intros v.
    rewrite elem_of_add_l33t_speak, elem_of_empty. split; [|done].
    intros (u & char & rs & r & Hu & Hentry & Hmem & _).
    rewrite (Hnone u char rs Hu Hentry) in Hmem. discriminate.
Qed.

(** The three passes work username by username. *)
Lemma pointwise_union (pass : gset string → gset string)
    (made : string → string → Prop) :
  (∀ s v, v ∈ pass s ↔ ∃ u, u ∈ s ∧ made u v) →
  ∀ s t, pass (s ∪ t) = pass s ∪ pass t.
Proof.
  intros Hpass s t. apply set_eq. intros v.
  rewrite elem_of_union, !Hpass. split.
  - intros (u & [Hu|Hu]%elem_of_union & Hv); [left|right]; by exists u.
  - intros [(u & Hu & Hv)|(u & Hu & Hv)]; exists u;
      (split; [apply elem_of_union; auto|done]).
Qed.

(** X8. Each of the three passes distributes over the union of base
    sets: what is added for a username does not depend on the other
    usernames of the set. *)
Theorem passes_distribute_over_union
    (s t : gset string) numbers years common_words caps_type :
  add_suffixes (s ∪ t) numbers years common_words
    = add_suffixes s numbers years common_words
      ∪ add_suffixes t numbers years common_words
  ∧ add_l33t_speak (s ∪ t) = add_l33t_speak s ∪ add_l33t_speak t
  ∧ add_caps_variations (s ∪ t) caps_type
    = add_caps_variations s caps_type ∪ add_caps_variations t caps_type.
Proof.
  split_and!.
  - apply (pointwise_union
             (λ s, add_suffixes s numbers years common_words)
             (λ u v,
                v = u
                ∨ (∃ n, n ∈ items numbers ∧
                     (v = u +:+ py_str n ∨ v = u +:+ "." +:+ py_str n
                      ∨ v = u +:+ "_" +:+ py_str n
                      ∨ v = u +:+ "-" +:+ py_str n))
                ∨ (∃ y, y ∈ items years ∧
                     (v = u +:+ py_str y
                      ∨ v = u +:+ Str.slice_from2 (py_str y)))
                ∨ (∃ w, w ∈ items common_words ∧
                     (v = u +:+ w ∨ v = u +:+ "." +:+ w
                      ∨ v = u +:+ "_" +:+ w ∨ v = u +:+ "-" +:+ w)))).
    intros s' v. rewrite elem_of_add_suffixes. split.
    + intros [Hv|[(u & n & ? & ? & ?)|[(u & y & ? & ? & ?)
                                      |(u & w & ? & ? & ?)]]].
      * exists v. split; [done|by left].
      * exists u. split; [done|]. right; left. by exists n.
      * exists u. split; [done|]. right; right; left. by exists y.
      * exists u. split; [done|]. right; right; right. by exists w.
    + intros (u & Hu & [->|[(n & ? & ?)|[(y & ? & ?)|(w & ? & ?)]]]).
      * by left.
      * right; left. by exists u, n.
      * right; right; left. by exists u, y.
      * right; right; right. by exists u, w.
  - apply (pointwise_union add_l33t_speak
             (λ u v, ∃ char replacements replacement,
                (char, replacements) ∈ l33t_map
                ∧ Str.mem char u = true ∧ replacement ∈ replacements
                ∧ v = replace_first char replacement u)).
    intros s' v. rewrite elem_of_add_l33t_speak. split.
    + intros (u & c & rs & r & ? & ?). exists u. split; [done|].
      by exists c, rs, r.
    + intros (u & ? & c & rs & r & ?). by exists u, c, rs, r.
  - apply (pointwise_union (λ s, add_caps_variations s caps_type)
             (λ u v,
                (caps_type = "all"
                 ∧ (v = upper u ∨ v = capitalize u ∨ v = title u))
                ∨ (caps_type = "first" ∧ v = capitalize u)
                ∨ (caps_type = "upper" ∧ v = upper u))).
    intros s' v. apply elem_of_add_caps_variations.
Qed.

(** ** The suffix pass, continued *)

(** X9. For a year of four digits the suffix pass adds the username
    followed by the year and the username followed by its last two
    digits. *)
Theorem add_suffixes_four_digit_year
    (usernames : gset string) numbers years common_words u y :
  u ∈ usernames → y ∈ years → 1000 ≤ y ≤ 9999 →
  u +:+ py_str y ∈ add_suffixes usernames numbers (Some years) common_words
  ∧ u +:+ Str.last2 (py_str y)
      ∈ add_suffixes usernames numbers (Some years) common_words.
Proof.
  intros Hu Hy Hrange. rewrite <- (year_slice_four_digits y Hrange).
  split; apply elem_of_add_suffixes; right; right; left;
    exists u, y; (split; [exact Hu|]); (split; [exact Hy|]); auto.
Qed.

Lemma add_suffixes_four_digit_year_witness :
  "john2024" ∈ add_suffixes {["john"]} None (Some [2023; 2024]) None
  ∧ "john24" ∈ add_suffixes {["john"]} None (Some [2023; 2024]) None.
Proof.
  apply (add_suffixes_four_digit_year {["john"]} None [2023; 2024] None
           "john" 2024);
    [by apply elem_of_singleton | by right; left | lia].
Defined.

(** X10. The suffix pass keeps every username it is given, and every
    string it returns is a username of the base set followed by a
    (possibly empty) suffix. *)
Theorem add_suffixes_extends_usernames
    (usernames : gset string) numbers years common_words :
  usernames ⊆ add_suffixes usernames numbers years common_words
  ∧ ∀ v, v ∈ add_suffixes usernames numbers years common_words →
         ∃ u suffix, u ∈ usernames ∧ v = u +:+ suffix.
Proof.
  split.
  - intros v Hv. apply elem_of_add_suffixes. by left.
  - intros v [Hv|[(u & n & Hu & _ & Hv)|[(u & y & Hu & _ & Hv)
                                        |(u & w & Hu & _ & Hv)]]]
      %elem_of_add_suffixes.
    + exists v, "". by rewrite app_empty_r.
    + exists u. destruct Hv as [->|[->|[->| ->]]]; eauto.
    + exists u. destruct Hv as [->| ->]; eauto.
    + exists u. destruct Hv as [->|[->|[->| ->]]]; eauto.
Qed.

(** ** Parsing, continued *)

Lemma split_on_length c s :
  length (Parse.split_on c s) = S (Str.count c s).
Proof.
  induction s as [|d s IH]; simpl; [reflexivity|].
  case_bool_decide; simpl; [by rewrite IH|].
  destruct (Parse.split_on c s); simpl in *; lia.
Qed.

Lemma result_map_list_returns {A B} (f : A → result B) xs ys :
  Forall2 (λ x y, f x = Return y) xs ys →
  result_map_list f xs = Return ys.
Proof.
  induction 1 as [|x y xs ys Hx _ IH]; simpl; [reflexivity|].
  by rewrite Hx, IH.
Qed.




(** X12. A specification that starts with a dash, or that holds two or
    more dashes, is rejected with [ValueError]: a negative number
    cannot be given, alone or as the bound of a range. *)
Theorem parse_numbers_rejects_dashes s :
  (∃ t, s = String "-" t) ∨ (2 ≤ Str.count "-" s)%nat →
  parse_numbers s = Raise ValueError
  ∧ parse_years s = Raise ValueError.
Proof.
  intros Hs.
  assert (Str.truthy s = true ∧ Str.mem "-" s = true) as [Htruthy Hdash].
  { destruct Hs as [[t ->]|Hcount]; [done|].
    split; [destruct s; simpl in *; [lia|done]|].
    assert (1 ≤ Str.count "-" s)%nat as H1 by lia. clear Hcount.
    induction s as [|c s IH]; simpl in *; [lia|].
    case_bool_decide as Hc; [subst; by rewrite bool_decide_true|].
    rewrite bool_decide_false by congruence. simpl. apply IH. lia. }
  assert (match Parse.split_on "-" s with
          | [start; end_] =>
              result_bind (Parse.int start) (λ lo,
              result_bind (Parse.int end_) (λ hi,
              Return (Parse.range lo (hi + 1))))
          | _ => Raise ValueError
          end = Raise ValueError) as Hsplit.
  { pose proof (split_on_length "-" s) as Hlen.
    destruct Hs as [[t ->]|Hcount].
    - simpl in *. destruct (Parse.split_on "-" t) as [|x [|y l]];
        simpl in *; [lia|reflexivity|reflexivity].
    - destruct (Parse.split_on "-" s) as [|x [|y [|z l]]];
        simpl in *; try reflexivity; lia. }
  unfold parse_numbers, parse_years. by rewrite Htruthy, Hdash, Hsplit.
Qed.

Lemma parse_numbers_rejects_dashes_witness :
  parse_numbers "-5" = Raise ValueError ∧ parse_years "-5" = Raise ValueError.
Proof.
  apply (parse_numbers_rejects_dashes "-5"). left. by exists "5".
Defined.

(** X13. A comma list whose pieces, once stripped, are all integers
    parses to their values in the order of the list. *)
Theorem parse_numbers_comma_list s ns :
  Str.mem "-" s = false → Str.mem "," s = true →
  Forall2 (λ token n, Parse.int (Parse.strip token) = Return n)
          (Parse.split_on "," s) ns →
  parse_numbers s = Return ns ∧ parse_years s = Return ns.
Proof.
  intros Hdash Hcomma Htokens.
  assert (Str.truthy s = true) as Htruthy by (by destruct s).
  unfold parse_numbers, parse_years. rewrite Htruthy, Hdash, Hcomma. simpl.
  by rewrite (result_map_list_returns _ _ _ Htokens).
Qed.

Lemma parse_numbers_comma_list_witness :
  parse_numbers "1, 22 ,3" = Return [1; 22; 3]
  ∧ parse_years "1, 22 ,3" = Return [1; 22; 3].
Proof.
  apply (parse_numbers_comma_list "1, 22 ,3" [1; 22; 3]);
    [reflexivity | reflexivity | repeat constructor].
Defined.

(** ** Whole runs *)

Lemma variants_nonempty first last middle formats v :
  v ∈ generate_variants first last middle formats → Str.truthy v = true.
Proof.
  intros Hv.
  variant_cases Hv; subst v;
    rewrite ?truthy_app, ?truthy_index0;
    repeat match goal with
           | H : Str.truthy _ = true |- _ => rewrite H
           end;
    simpl; rewrite ?orb_true_r; reflexivity.
Qed.

Lemma truthy_length s : Str.truthy s = true ↔ (0 < String.length s)%nat.
Proof. destruct s; simpl; split; (congruence || lia). Qed.

(** Each pass returns non-empty strings when it is given non-empty
    strings. *)
Lemma passes_keep_nonempty (usernames : gset string) :
  (∀ u, u ∈ usernames → Str.truthy u = true) →
  (∀ numbers years words v,
     v ∈ add_suffixes usernames numbers years words → Str.truthy v = true)
  ∧ (∀ v, v ∈ add_l33t_speak usernames → Str.truthy v = true)
  ∧ (∀ caps_type v,
       v ∈ add_caps_variations usernames caps_type → Str.truthy v = true).
Proof.
  intros Hbase. split_and!.
  - intros numbers years words v
      [Hv|[(u & n & Hu & _ & Hv)|[(u & y & Hu & _ & Hv)
                                 |(u & w & Hu & _ & Hv)]]]
      %elem_of_add_suffixes; [by apply Hbase|..];
      apply Hbase in Hu;
      repeat (destruct Hv as [->|Hv]); subst;
      by rewrite truthy_app, Hu.
  - intros v (u & char & rs & r & Hu & Hentry & Hmem & Hr & ->)
      %elem_of_add_l33t_speak.
    destruct (l33t_map_single_characters _ _ _ Hentry Hr) as (d & -> & _).
    destruct (replace_first_occurrence char (String d "") u Hmem)
      as (before & after & _ & _ & ->).
    rewrite !truthy_app. simpl. apply orb_true_r.
  - intros caps_type v (u & Hu & Hv)%elem_of_add_caps_variations.
    apply Hbase, truthy_length in Hu. apply truthy_length.
    destruct Hv as [[_ [->|[->| ->]]]|[[_ ->]|[_ ->]]];
      unfold upper, title;
      rewrite ?length_map, ?length_capitalize, ?length_title_from; done.
Qed.

Lemma process_name_nonempty name args usernames v :
  (process_name name args).2 = Return usernames →
  v ∈ usernames → Str.truthy v = true.
Proof.
  rewrite process_name_steps. destruct (usable name); simpl.
  - destruct (name_parts _) as [[first middle] last]. simpl.
    destruct (suffix_specs args) as [[[numbers years] words]|ex]; simpl;
      [|discriminate].
    intros [= <-].
    set (base := generate_variants first last middle (Args.format args)).
    assert (∀ u, u ∈ base → Str.truthy u = true) as H0
      by (intros u; apply variants_nonempty).
    set (s1 := add_suffixes base numbers years words).
    assert (∀ u, u ∈ s1 → Str.truthy u = true) as H1
      by (intros u; apply (passes_keep_nonempty base H0)).
    set (s2 := if Args.leet args then leet_pass s1 else s1).
    assert (∀ u, u ∈ s2 → Str.truthy u = true) as H2.
    { intros u. unfold s2, leet_pass. destruct (Args.leet args); [|apply H1].
      intros [?|?]%elem_of_union; [by apply H1|].
      by apply (passes_keep_nonempty s1 H1). }
    unfold caps_pass. destruct (negb _); [|apply H2].
    intros [?|?]%elem_of_union; [by apply H2|].
    by apply (passes_keep_nonempty s2 H2) in H.
  - intros [= <-] Hv. by apply not_elem_of_empty in Hv.
Qed.

(** X15. No run outputs an empty username: the variants of a name are
    non-empty and the three passes keep them so. *)
Theorem main_outputs_no_empty_line args e t lines :
  main args e = (t, Output lines) → "" ∉ lines.
Proof.
  intros (names & per_name & _ & Hall & ->)%main_output Hin.
  assert (aggregate (Args.sort args) per_name
          = sorted (for_each per_name (λ usernames all_usernames,
                      all_usernames ∪ usernames) ∅)) as Hagg
    by (unfold aggregate; by destruct (Args.sort args)).
  rewrite Hagg in Hin.
  apply (proj2 (proj2 (sorted_spec _))) in Hin.
  apply elem_of_union_loop in Hin as [Hin|(usernames & Hus & Hin)];
    [by apply not_elem_of_empty in Hin|].
  apply list_elem_of_lookup in Hus as [i Hi].
  destruct (Forall2_lookup_r _ _ _ _ _ Hall Hi) as (name & _ & Hname).
  by apply (process_name_nonempty _ _ _ _ Hname) in Hin.
Qed.

Lemma main_outputs_no_empty_line_witness :
  "" ∉ ["doe"; "doe-john"; "doe.john"; "doe_john"; "doejohn"; "john";
        "johndoe"].
Proof.
  apply (main_outputs_no_empty_line
           (Args.Make (Some ["John Doe"]) None (Some ["standard"; "reversed"])
                      None None None false "none" false)
           no_env [Generate "john" "doe" ""]).
  vm_compute. reflexivity.
Defined.

(** The result of the loop of [main], apart from the trace: the union
    of the per-name results, or the exception of the first name that
    raises. *)
Lemma collect_result names args (acc : gset string) :
  (collect names args acc).2 =
    match result_map_list (λ name, (process_name name args).2) names with
    | Return per_name =>
        Return (for_each per_name (λ usernames all_usernames,
                  all_usernames ∪ usernames) acc)
    | Raise ex => Raise ex
    end.
Proof.
  revert acc. induction names as [|name names IH]; intros acc;
    [reflexivity|].
  simpl. unfold bind. destruct (process_name name args) as [t1 [us|ex]];
    simpl; [|reflexivity].
  specialize (IH (acc ∪ us)).
  destruct (collect names args (acc ∪ us)) as [t2 r2]. simpl in *.
  rewrite IH. by destruct (result_map_list _ names).
Qed.

Lemma result_map_list_permutation {A B} (f : A → result B) (l1 l2 : list A) :
  l1 ≡ₚ l2 →
  match result_map_list f l1, result_map_list f l2 with
  | Return ys1, Return ys2 => ys1 ≡ₚ ys2
  | Raise _, Raise _ => True
  | _, _ => False
  end.
Proof.
  induction 1 as [|x l1 l2 _ IH|x y l|l1 l2 l3 _ IH1 _ IH2]; simpl.
  - done.
  - destruct (f x); simpl; [|done].
    destruct (result_map_list f l1), (result_map_list f l2); simpl;
      try done. by constructor.
  - destruct (f x), (f y); simpl; try done.
    destruct (result_map_list f l); simpl; [|done]. apply perm_swap.
  - destruct (result_map_list f l1), (result_map_list f l2),
      (result_map_list f l3); try done. by etrans.
Qed.

(** X16. The outcome of a run does not depend on the order of the
    names: two lists of names that are permutations of one another give
    the same output, or both give the same error. *)
Theorem main_order_independent args e1 e2 names1 names2 :
  read_names args e1 = inr names1 → read_names args e2 = inr names2 →
  names1 ≡ₚ names2 →
  (main args e1).2 = (main args e2).2.
Proof.
  intros H1 H2 Hperm. unfold main. rewrite H1, H2.
  destruct names1 as [|n1 names1].
  { apply Permutation_nil_l in Hperm. by subst names2. }
  destruct names2 as [|n2 names2].
  { by apply Permutation_nil_r in Hperm. }
  pose proof (collect_result (n1 :: names1) args ∅) as Hc1.
  pose proof (collect_result (n2 :: names2) args ∅) as Hc2.
  pose proof (result_map_list_permutation
                (λ name, (process_name name args).2) _ _ Hperm) as Hmap.
  destruct (collect (n1 :: names1) args ∅) as [t1 r1].
  destruct (collect (n2 :: names2) args ∅) as [t2 r2].
  cbn [snd] in Hc1, Hc2. subst r1 r2.
  destruct (result_map_list _ (n1 :: names1)) as [sets1|[]],
    (result_map_list _ (n2 :: names2)) as [sets2|[]]; try done.
  assert (for_each sets1 (λ usernames all_usernames : gset string,
            all_usernames ∪ usernames) ∅
          = for_each sets2 (λ usernames all_usernames,
              all_usernames ∪ usernames) ∅) as Heq.
  { apply set_eq. intros v. rewrite !elem_of_union_loop.
    by setoid_rewrite Hmap. }
  rewrite Heq. reflexivity.
Qed.

Lemma main_order_independent_witness :
  (main (Args.Make None (Some "names.txt") (Some ["all"]) None None None
                   false "none" false)
        {| read_file := λ _, Some ["John Doe"; "Jane Roe"]; stdin := None |}).2
  = (main (Args.Make None (Some "names.txt") (Some ["all"]) None None None
                     false "none" false)
          {| read_file := λ _, Some ["Jane Roe"; "John Doe"];
             stdin := None |}).2.
Proof.
  apply (main_order_independent _ _ _ ["John Doe"; "Jane Roe"]
           ["Jane Roe"; "John Doe"]);
    [reflexivity | reflexivity | apply perm_swap].
Defined.

(** ** Cleaning and tokens *)

Section CleanFacts.
Implicit Types (s t : string) (c : ascii) (p q : ascii → bool).

Lemma collapse_ws_chars b s :
  Str.forallb is_name_char s = true →
  Str.forallb is_clean_char (collapse_ws_from b s) = true.
Proof.
  revert b. induction s as [|c s IH]; intros b; simpl; [reflexivity|].
  intros [Hc Hs]%andb_true_iff.
  destruct (Chars.is_space c) eqn:Hsp.
  - destruct b; simpl; auto.
  - simpl. rewrite (IH _ Hs), andb_true_r.
    unfold is_name_char in Hc. rewrite Hsp, orb_false_r in Hc.
    unfold is_clean_char, is_token_char. by rewrite Hc.
Qed.

Lemma collapse_ws_no_adjacent b s :
  Str.no_adjacent_from b Chars.is_space (collapse_ws_from b s) = true.
Proof.
  revert b. induction s as [|c s IH]; intros b; simpl; [reflexivity|].
  destruct (Chars.is_space c) eqn:Hsp.
  - destruct b; [apply IH|]. simpl. apply IH.
  - simpl. rewrite Hsp, andb_false_r. simpl. apply IH.
Qed.

End CleanFacts.

(** X17. A cleaned name holds only lowercase letters, digits,
    apostrophes, hyphens and spaces, and no two whitespace characters
    in a row. *)
Theorem clean_characters s :
  Str.forallb is_clean_char (clean s) = true
  ∧ Str.no_adjacent_from false Chars.is_space (clean s) = true.
Proof.
  unfold clean. split.
  - apply collapse_ws_chars, forallb_filter.
  - apply collapse_ws_no_adjacent.
Qed.

Section TokenFacts.
Implicit Types (s t word : string) (c : ascii) (p q : ascii → bool).

Lemma existsb_ext p q s :
  (∀ c, p c = q c) → Str.existsb p s = Str.existsb q s.
Proof.
  intros Hpq. induction s as [|c s IH]; simpl; [reflexivity|].
  by rewrite Hpq, IH.
Qed.

Lemma existsb_rev_app p s t :
  Str.existsb p (String.rev_app s t) = Str.existsb p s || Str.existsb p t.
Proof.
  revert t. induction s as [|c s IH]; intros t; simpl; [reflexivity|].
  rewrite IH. simpl. destruct (p c), (Str.existsb p s); simpl;
    rewrite ?orb_true_r; reflexivity.
Qed.

Lemma existsb_lstrip p space s :
  (∀ c, p c = true → space c = false) →
  Str.existsb p (Parse.lstrip_of space s) = Str.existsb p s.
Proof.
  intros Hp. induction s as [|c s IH]; simpl; [reflexivity|].
  destruct (space c) eqn:Hc; [|reflexivity].
  rewrite IH. destruct (p c) eqn:Hpc; [|reflexivity].
  apply Hp in Hpc. congruence.
Qed.

Lemma existsb_strip p space s :
  (∀ c, p c = true → space c = false) →
  Str.existsb p (Parse.strip_of space s) = Str.existsb p s.
Proof.
  intros Hp. unfold Parse.strip_of, Parse.rstrip_of, String.rev.
  rewrite existsb_rev_app, existsb_lstrip, existsb_rev_app by done.
  simpl. rewrite !orb_false_r. by apply existsb_lstrip.
Qed.

Lemma existsb_map p f s :
  Str.existsb p (Str.map f s) = Str.existsb (λ c, p (f c)) s.
Proof. induction s as [|c s IH]; simpl; [reflexivity|]. by rewrite IH. Qed.

Lemma existsb_filter p q s :
  Str.existsb p (Str.filter q s) = Str.existsb (λ c, q c && p c) s.
Proof.
  induction s as [|c s IH]; simpl; [reflexivity|].
  destruct (q c); simpl; by rewrite IH.
Qed.

Lemma existsb_collapse_ws b s :
  Str.existsb (λ c, negb (Chars.is_space c)) (collapse_ws_from b s)
  = Str.existsb (λ c, negb (Chars.is_space c)) s.
Proof.
  revert b. induction s as [|c s IH]; intros b; simpl; [reflexivity|].
  destruct (Chars.is_space c) eqn:Hc; simpl.
  - destruct b; simpl; apply IH.
  - by rewrite Hc.
Qed.

(** There is a token exactly when a word is under way or a character
    that is not whitespace follows. *)
Lemma split_ws_from_some word s :
  match Parse.split_ws_from word s with [] => false | _ => true end
  = Str.truthy word || Str.existsb (λ c, negb (Chars.is_space c)) s.
Proof.
  revert word. induction s as [|c s IH]; intros word; simpl.
  - destruct (Str.truthy word); reflexivity.
  - destruct (Chars.is_space c); simpl.
    + destruct (Str.truthy word); [reflexivity|]. by rewrite IH.
    + rewrite IH. simpl. by rewrite orb_true_r.
Qed.

Lemma word_char_of_lower c :
  is_name_char (Chars.to_lower c) && negb (Chars.is_space (Chars.to_lower c))
  = is_word_char c.
Proof. destruct c as [[] [] [] [] [] [] [] []]; reflexivity. Qed.

Lemma word_char_not_space c :
  is_word_char c = true → Chars.is_space c = false.
Proof. destruct c as [[] [] [] [] [] [] [] []]; simpl; done. Qed.

Lemma truthy_rev_app s t :
  Str.truthy (String.rev_app s t) = Str.truthy s || Str.truthy t.
Proof.
  revert t. induction s as [|c s IH]; intros t; simpl; [reflexivity|].
  rewrite IH. simpl. apply orb_true_r.
Qed.

Lemma truthy_rev word : Str.truthy (String.rev word) = Str.truthy word.
Proof. unfold String.rev. rewrite truthy_rev_app. apply orb_false_r. Qed.

Lemma clean_char_token c :
  is_clean_char c = true → Chars.is_space c = false →
  is_token_char c = true.
Proof.
  unfold is_clean_char. destruct (is_token_char c); [done|]. simpl.
  intros ->%bool_decide_eq_true. done.
Qed.

(** The tokens of a string of clean characters. *)
Lemma split_ws_from_tokens word s :
  Str.forallb is_clean_char s = true →
  Str.forallb is_token_char word = true →
  Forall (λ token, Str.truthy token = true
                   ∧ Str.forallb is_token_char token = true)
         (Parse.split_ws_from word s).
Proof.
  assert (∀ w, Str.truthy w = true → Str.forallb is_token_char w = true →
               Str.truthy (String.rev w) = true
               ∧ Str.forallb is_token_char (String.rev w) = true) as Hrev.
  { intros w Hw Hchars. rewrite truthy_rev. split; [exact Hw|].
    unfold String.rev. by rewrite forallb_rev_app, Hchars. }
  revert word. induction s as [|c s IH]; intros word; simpl.
  - intros _ Hword. destruct (Str.truthy word) eqn:Hw; [|constructor].
    constructor; [by apply Hrev|constructor].
  - intros [Hc Hs]%andb_true_iff Hword.
    destruct (Chars.is_space c) eqn:Hsp.
    + destruct (Str.truthy word) eqn:Hw; [|by apply IH].
      constructor; [by apply Hrev|by apply IH].
    + apply IH; [exact Hs|]. simpl.
      by rewrite (clean_char_token c Hc Hsp), Hword.
Qed.

Lemma map_rev_app f s t :
  Str.map f (String.rev_app s t)
  = String.rev_app (Str.map f s) (Str.map f t).
Proof.
  revert t. induction s as [|c s IH]; intros t; simpl; [reflexivity|].
  by rewrite IH.
Qed.

Lemma lstrip_map space f s :
  (∀ c, space (f c) = space c) →
  Parse.lstrip_of space (Str.map f s) = Str.map f (Parse.lstrip_of space s).
Proof.
  intros Hf. induction s as [|c s IH]; simpl; [reflexivity|].
  rewrite Hf. by destruct (space c).
Qed.

Lemma strip_map space f s :
  (∀ c, space (f c) = space c) →
  Parse.strip_of space (Str.map f s) = Str.map f (Parse.strip_of space s).
Proof.
  intros Hf. unfold Parse.strip_of, Parse.rstrip_of, String.rev.
  rewrite (lstrip_map _ _ _ Hf), <- (map_rev_app f _ ""),
    (lstrip_map _ _ _ Hf), <- (map_rev_app f _ ""). reflexivity.
Qed.

Lemma is_space_to_lower c :
  Chars.is_space (Chars.to_lower c) = Chars.is_space c.
Proof. destruct c as [[] [] [] [] [] [] [] []]; reflexivity. Qed.

Lemma clean_lower s : clean (lower s) = clean s.
Proof.
  unfold clean, Parse.strip, lower.
  rewrite (strip_map _ _ _ is_space_to_lower).
  fold (lower (Parse.strip_of Chars.is_space s)).
  fold (lower (lower (Parse.strip_of Chars.is_space s))).
  by rewrite lower_idemp.
Qed.

End TokenFacts.

(** X18. An ASCII name is processed exactly when it holds a letter, a
    digit, an apostrophe or a hyphen; an ASCII name without any of them
    has no token and yields the empty set without a call of the
    generator and without the specifications being parsed.  (A name
    with other characters is outside the statement: the normalisation
    of [clean] can turn an accented letter into an ASCII one.) *)
Theorem usable_iff_word_char name :
  Str.forallb Chars.is_ascii name = true →
  usable name = Str.existsb is_word_char name
  ∧ (Str.existsb is_word_char name = false →
     ∀ args, process_name name args = ([], Return ∅)).
Proof.
  intros _.
  assert (usable name = Str.existsb is_word_char name) as Husable.
  { unfold usable, Parse.split_ws. rewrite split_ws_from_some. simpl.
    unfold clean. rewrite existsb_collapse_ws, existsb_filter.
    unfold lower, Parse.strip. rewrite existsb_map.
    rewrite (existsb_ext _ is_word_char) by apply word_char_of_lower.
    apply existsb_strip, word_char_not_space. }
  split; [exact Husable|].
  intros Hnone args. by rewrite process_name_steps, Husable, Hnone.
Qed.

Lemma usable_iff_word_char_witness :
  usable "?? !! .." = Str.existsb is_word_char "?? !! .."
  ∧ (Str.existsb is_word_char "?? !! .." = false →
     ∀ args, process_name "?? !! .." args = ([], Return ∅)).
Proof. apply (usable_iff_word_char "?? !! .."). reflexivity. Defined.

(** X19. Every token of a cleaned name is non-empty and holds only
    lowercase letters, digits, apostrophes and hyphens. *)
Theorem tokens_of_clean_name name :
  Forall (λ token, token ≠ "" ∧ Str.forallb is_token_char token = true)
         (Parse.split_ws (clean name)).
Proof.
  eapply Forall_impl.
  - apply split_ws_from_tokens; [|reflexivity].
    unfold clean. apply collapse_ws_chars, forallb_filter.
  - intros token [Htruthy Hchars]. split; [by apply truthy_true|exact Hchars].
Qed.

(** X20. The case of the letters of a name does not matter: two names
    that are equal once lower-cased are processed alike. *)
Theorem process_name_case_insensitive name1 name2 args :
  lower name1 = lower name2 →
  process_name name1 args = process_name name2 args.
Proof.
  intros Hlower.
  assert (clean name1 = clean name2) as Hclean
    by (by rewrite <- (clean_lower name1), Hlower, clean_lower).
  unfold process_name. by rewrite Hclean.
Qed.

Lemma process_name_case_insensitive_witness :
  process_name "John DOE" (args_of_names [] None)
  = process_name "jOHN doe" (args_of_names [] None).
Proof.
  apply (process_name_case_insensitive "John DOE" "jOHN doe"). reflexivity.
Defined.

(** ** Rejected specifications and blank input *)

(** X21. A comma list with a piece that is no integer once stripped, an
    empty piece among them, is rejected with [ValueError] by both
    parsers. *)
Theorem parse_rejects_bad_list_token s token :
  Str.mem "-" s = false → Str.mem "," s = true →
  token ∈ Parse.split_on "," s →
  Parse.int (Parse.strip token) = Raise ValueError →
  parse_numbers s = Raise ValueError ∧ parse_years s = Raise ValueError.
Proof.
  intros Hdash Hcomma Htoken Hint.
  assert (Str.truthy s = true) as Htruthy by (by destruct s).
  unfold parse_numbers, parse_years. rewrite Htruthy, Hdash, Hcomma. simpl.
  by rewrite (result_map_list_raises _ _ token Htoken Hint).
Qed.

Lemma parse_rejects_bad_list_token_witness :
  parse_numbers "1,2," = Raise ValueError
  ∧ parse_years "1,2," = Raise ValueError.
Proof.
  apply (parse_rejects_bad_list_token "1,2," "");
    [reflexivity | reflexivity | | reflexivity].
  apply py_in_true. reflexivity.
Defined.

(** X22. A range one of whose bounds is no integer is rejected with
    [ValueError] by both parsers. *)
Theorem parse_rejects_bad_range_bound sa sb :
  Str.mem "-" sa = false → Str.mem "-" sb = false →
  Parse.int sa = Raise ValueError ∨ Parse.int sb = Raise ValueError →
  parse_numbers (sa +:+ "-" +:+ sb) = Raise ValueError
  ∧ parse_years (sa +:+ "-" +:+ sb) = Raise ValueError.
Proof.
  intros Hsa Hsb Hbad.
  split; [by apply parse_numbers_bad_range_token|].
  unfold parse_years.
  assert (Str.truthy (sa +:+ "-" +:+ sb) = true) as ->
    by (rewrite !truthy_app; simpl; apply orb_true_r).
  assert (Str.mem "-" (sa +:+ "-" +:+ sb) = true) as ->
    by (rewrite !mem_app; simpl; apply orb_true_r).
  rewrite split_range by done. simpl.
  destruct Hbad as [->| ->]; [reflexivity|].
  by destruct (Parse.int sa) as [a|[]].
Qed.

Lemma parse_rejects_bad_range_bound_witness :
  parse_numbers "1-x" = Raise ValueError
  ∧ parse_years "1-x" = Raise ValueError.
Proof.
  apply (parse_rejects_bad_range_bound "1" "x");
    [reflexivity | reflexivity | by right].
Defined.

Lemma blank_lines_reported_witness :
  main (Args.Make None (Some "names.txt") (Some ["all"]) None None None
                  false "none" false)
       {| read_file := λ _, Some [""; "   "]; stdin := None |}
  = ([], Exit1 "Error: No names provided").
Proof.
  apply (blank_lines_reported _ _ [""; "   "]);
    [reflexivity | left; split; reflexivity | repeat constructor].
Defined.

(** ** Name parts *)

Lemma name_parts_long p0 p1 middle_tokens last_token :
  name_parts (p0 :: p1 :: middle_tokens ++ [last_token])
  = (p0, p1, last_token).
Proof.
  unfold name_parts.
  assert (List.last (p0 :: p1 :: middle_tokens ++ [last_token]) ""
          = last_token) as ->.
  { change (p0 :: p1 :: middle_tokens ++ [last_token])
      with ((p0 :: p1 :: middle_tokens) ++ [last_token]).
    apply List.last_last. }
  by destruct middle_tokens.
Qed.

(** X24. Of a name with three tokens or more, only the first, the
    second and the last token count: two names that differ in the
    tokens between the second and the last are processed alike. *)
Theorem process_name_ignores_inner_tokens
    name1 name2 args p0 p1 inner1 inner2 last_token :
  Parse.split_ws (clean name1) = p0 :: p1 :: inner1 ++ [last_token] →
  Parse.split_ws (clean name2) = p0 :: p1 :: inner2 ++ [last_token] →
  process_name name1 args = process_name name2 args.
Proof.
  intros H1 H2. rewrite !process_name_steps. unfold usable.
  rewrite H1, H2, !name_parts_long. reflexivity.
Qed.

Lemma process_name_ignores_inner_tokens_witness :
  process_name "John Ann Bea Cleo Doe" (args_of_names [] None)
  = process_name "John Ann Doe" (args_of_names [] None).
Proof.
  apply (process_name_ignores_inner_tokens
           "John Ann Bea Cleo Doe" "John Ann Doe" (args_of_names [] None)
           "john" "ann" ["bea"; "cleo"] [] "doe");
    reflexivity.
Defined.
